(** * Pre-simulation filter of the MEV bot: shallow embedding and properties

    The development follows [pre-simulation-filter.ts]: the async generator
    [preSimulationFilter] pulls mempool updates from the bounded relay,
    resolves the address lookup tables of every transaction, asks the
    Solana library for the full account-key list, scans the keys against
    the skip list and the market registry, and yields the transactions that
    touch a token account of interest.

    Effects of the generator (resolver calls, log lines, clock reads, yields
    and uncaught exceptions) are threaded through a state-and-exception
    monad [Gen]. *)

From Stdlib Require Import ZArith.
From stdpp Require Import base option list strings gmap.

Local Open Scope string_scope.
Local Open Scope list_scope.
Local Open Scope nat_scope.

(** ** Data model *)

(** A [PublicKey] is identified with its canonical base58 string, which is
    what the filter compares ([key.toBase58()]). *)
Record PublicKey := { toBase58 : string }.

#[global] Instance PublicKey_eq_dec : EqDecision PublicKey.
Proof. solve_decision. Defined.

(** [txn.message.addressTableLookups[i]] *)
Record MessageAddressTableLookup := {
  accountKey : PublicKey;
  writableIndexes : list nat;
  readonlyIndexes : list nat;
}.

(** A resolved lookup table: [lut.key] and [lut.state.addresses]. *)
Record AddressLookupTableAccount := {
  key : PublicKey;
  addresses : list PublicKey;
}.

(** [txn.message], of type [VersionedMessage = Message | MessageV0]: a
    legacy [Message] holds its account keys only, a [MessageV0] its static
    keys and its table lookups. *)
Inductive VersionedMessage :=
| Message (accountKeys : list PublicKey)
| MessageV0 (staticKeys : list PublicKey)
            (tableLookups : list MessageAddressTableLookup).

(** [message.staticAccountKeys] *)
Definition staticAccountKeys (m : VersionedMessage) : list PublicKey :=
  match m with
  | Message accountKeys => accountKeys
  | MessageV0 staticKeys _ => staticKeys
  end.

(** [message.addressTableLookups]: the getter of a legacy message returns
    the empty array. *)
Definition addressTableLookups (m : VersionedMessage)
  : list MessageAddressTableLookup :=
  match m with
  | Message _ => []
  | MessageV0 _ tableLookups => tableLookups
  end.

Record VersionedTransaction := {
  signatures : list string;
  message : VersionedMessage;
}.

(** The object returned by [getAccountKeys], observed through
    [keySegments()] only. *)
Record MessageAccountKeys := { keySegments : list (list PublicKey) }.

(** Unix millisecond timestamps, one per pipeline stage. *)
Record Timings := {
  mempoolEnd : Z;
  preSimEnd : Z;
  simEnd : Z;
  postSimEnd : Z;
  calcArbEnd : Z;
  buildBundleEnd : Z;
  bundleSent : Z;
}.

(** One item of the [mempoolUpdates] stream: [{ txns, timings }]. *)
Record MempoolUpdate := {
  txns : list VersionedTransaction;
  updateTimings : Timings;
}.

Record FilteredTransaction := {
  txn : VersionedTransaction;
  accountsOfInterest : list string;
  timings : Timings;
}.

(** ** Constants of the module *)

Definition SKIP_TX_IF_CONTAINS_ADDRESS : list string :=
  ["882DFRCi5akKFyYxT4PP2vZkoQEGvm2Nsind2nPDuGqu"].

Definition HIGH_WATER_MARK : nat := 250.

(** ** JavaScript [Set<string>]

    A [Set] iterates in insertion order and [add] of a present element
    changes nothing; it is kept as the list of its elements in insertion
    order. *)
Module JsSet.
Abbreviation t := (list string) (only parsing).
Definition empty : t := [].
Definition add (x : string) (s : t) : t :=
  if bool_decide (x ∈ s) then s else s ++ [x].
Definition size (s : t) : nat := length s.
(** [[...s]] *)
Definition spread (s : t) : list string := s.
End JsSet.

(** ** Exceptions, log lines and the generator's world *)

Inductive Exn :=
| TypeError (msg : string)   (** raised by the runtime on [null.keySegments()] *)
| Error (msg : string).      (** raised by library code *)

(** What the runtime raises when a method is called on [null]. *)
Definition nullKeySegments : Exn :=
  TypeError "Cannot read properties of null (reading 'keySegments')".

Inductive LogEvent :=
| Warn (e : Exn) (msg : string)
| Debug (msg : string) (count : nat).

(** [logger.warn(e, 'address not in lookup table')] *)
Definition warning (e : Exn) : LogEvent := Warn e "address not in lookup table".

(** [logger.debug(`Found txn with ${n} accounts of interest`)] *)
Definition found (n : nat) : LogEvent := Debug "Found txn with accounts of interest" n.

Record World := {
  resolverCalls : list PublicKey;       (** arguments of [getLookupTable], oldest first *)
  scanned : list string;                (** [keyStr] of every iteration of the key scan *)
  logged : list LogEvent;               (** lines written through [logger] *)
  ticks : nat;                          (** number of [Date.now()] reads so far *)
  yielded : list FilteredTransaction;   (** values handed to the consumer, oldest first *)
}.

Definition initialWorld : World :=
  {| resolverCalls := []; scanned := []; logged := []; ticks := 0; yielded := [] |}.

(** A computation of the generator body: it ends with a value or with an
    exception that nothing caught, and leaves a new world. *)
Definition Gen (A : Type) : Type := World → (Exn + A) * World.

#[global] Instance Gen_ret : MRet Gen := λ A a w, (inr a, w).
#[global] Instance Gen_bind : MBind Gen := λ A B f m w,
  match m w with
  | (inl e, w') => (inl e, w')
  | (inr a, w') => f a w'
  end.
#[global] Instance Gen_throw : MThrow Exn Gen := λ A e w, (inl e, w).

(** ** External collaborators

    [getLookupTable] is [lookupTableProvider.getLookupTable] ([None] is
    [null]), which answers the same for the same address throughout a run
    and whose promise is taken to resolve: a rejection of it, like a fault
    of the stream of updates, is outside what is modelled here;
    [getAccountKeys] is the library method
    [txn.message.getAccountKeys({ addressLookupTableAccounts })], which
    returns or throws; [isTokenAccountOfInterest] is the market registry's
    predicate; [Date_now n] is what the [n]-th read of [Date.now()] returns. *)
Class Collaborators := {
  getLookupTable : PublicKey → option AddressLookupTableAccount;
  getAccountKeys :
    VersionedMessage → list AddressLookupTableAccount → Exn + MessageAccountKeys;
  isTokenAccountOfInterest : string → bool;
  Date_now : nat → Z;
}.

Section PreSimulationFilter.
Context `{Collaborators}.

(** *** Primitive effects *)

Definition await_getLookupTable (k : PublicKey)
  : Gen (option AddressLookupTableAccount) := λ w,
  (inr (getLookupTable k),
   {| resolverCalls := resolverCalls w ++ [k]; scanned := scanned w;
      logged := logged w; ticks := ticks w; yielded := yielded w |}).

Definition visit (keyStr : string) : Gen unit := λ w,
  (inr (),
   {| resolverCalls := resolverCalls w; scanned := scanned w ++ [keyStr];
      logged := logged w; ticks := ticks w; yielded := yielded w |}).

Definition logger (ev : LogEvent) : Gen unit := λ w,
  (inr (),
   {| resolverCalls := resolverCalls w; scanned := scanned w;
      logged := logged w ++ [ev]; ticks := ticks w; yielded := yielded w |}).

Definition Date_now_read : Gen Z := λ w,
  (inr (Date_now (ticks w)),
   {| resolverCalls := resolverCalls w; scanned := scanned w;
      logged := logged w; ticks := S (ticks w); yielded := yielded w |}).

Definition yield (ft : FilteredTransaction) : Gen unit := λ w,
  (inr (),
   {| resolverCalls := resolverCalls w; scanned := scanned w;
      logged := logged w; ticks := ticks w; yielded := yielded w ++ [ft] |}).

(** *** The body of [preSimulationFilter] *)

(** [for (const lookup of txn.message.addressTableLookups)]: the loop
    pushes every table found and leaves at the first [null]. *)
Fixpoint resolveLookups (lookups : list MessageAddressTableLookup)
    (addressLookupTableAccounts : list AddressLookupTableAccount)
  : Gen (list AddressLookupTableAccount) :=
  match lookups with
  | [] => mret addressLookupTableAccounts
  | lookup :: rest =>
      lut ← await_getLookupTable (accountKey lookup);
      match lut with
      | None => mret addressLookupTableAccounts
      | Some lut => resolveLookups rest (addressLookupTableAccounts ++ [lut])
      end
  end.

(** [let accountKeys = null; try { accountKeys = ... } catch (e) { logger.warn(...) }] *)
Definition tryGetAccountKeys (txn : VersionedTransaction)
    (addressLookupTableAccounts : list AddressLookupTableAccount)
  : Gen (option MessageAccountKeys) :=
  match getAccountKeys (message txn) addressLookupTableAccounts with
  | inr accountKeys => mret (Some accountKeys)
  | inl e => logger (warning e);; mret None
  end.

(** [accountKeys.keySegments().flat()]: the call on [null] raises. *)
Definition flatKeySegments (accountKeys : option MessageAccountKeys)
  : Gen (list PublicKey) :=
  match accountKeys with
  | None => mthrow nullKeySegments
  | Some accountKeys => mret (concat (keySegments accountKeys))
  end.

(** [for (const key of ...)]: returns [skipTx] and the set built so far. *)
Fixpoint scanKeys (keys : list PublicKey) (accountsOfInterest : JsSet.t)
  : Gen (bool * JsSet.t) :=
  match keys with
  | [] => mret (false, accountsOfInterest)
  | key :: rest =>
      let keyStr := toBase58 key in
      visit keyStr;;
      if bool_decide (keyStr ∈ SKIP_TX_IF_CONTAINS_ADDRESS)
      then mret (true, accountsOfInterest)
      else scanKeys rest
             (if isTokenAccountOfInterest keyStr
              then JsSet.add keyStr accountsOfInterest
              else accountsOfInterest)
  end.

(** The iteration of [for (const txn of txns)] from the [try] on, with the
    tables the lookup loop collected; returning [()] without a yield is
    [continue]. *)
Definition expandAndFilter (timings : Timings) (txn : VersionedTransaction)
    (addressLookupTableAccounts : list AddressLookupTableAccount)
  : Gen unit :=
  accountKeys ← tryGetAccountKeys txn addressLookupTableAccounts;
  keys ← flatKeySegments accountKeys;
  '((skipTx, accountsOfInterest) : bool * JsSet.t) ← scanKeys keys JsSet.empty;
  if skipTx then mret ()
  else if Nat.eqb (JsSet.size accountsOfInterest) 0 then mret ()
  else
    logger (found (JsSet.size accountsOfInterest));;
    now ← Date_now_read;
    yield {| txn := txn;
             accountsOfInterest := JsSet.spread accountsOfInterest;
             timings := {| mempoolEnd := mempoolEnd timings;
                           preSimEnd := now;
                           simEnd := 0;
                           postSimEnd := 0;
                           calcArbEnd := 0;
                           buildBundleEnd := 0;
                           bundleSent := 0 |} |}.

(** One iteration of [for (const txn of txns)]. *)
Definition processTxn (timings : Timings) (txn : VersionedTransaction)
  : Gen unit :=
  addressLookupTableAccounts ←
    resolveLookups (addressTableLookups (message txn)) [];
  expandAndFilter timings txn addressLookupTableAccounts.

(** [for (const txn of txns)] *)
Fixpoint forTxns (timings : Timings) (txns : list VersionedTransaction)
  : Gen unit :=
  match txns with
  | [] => mret ()
  | txn :: rest => processTxn timings txn;; forTxns timings rest
  end.

(** [for await (const { txns, timings } of mempoolUpdatesGreedy)], run on
    the updates the relay hands over before its stream ends. *)
Fixpoint preSimulationFilter (mempoolUpdatesGreedy : list MempoolUpdate)
  : Gen unit :=
  match mempoolUpdatesGreedy with
  | [] => mret ()
  | update :: rest =>
      forTxns (updateTimings update) (txns update);;
      preSimulationFilter rest
  end.

End PreSimulationFilter.

(** ** The library's key expansion

    [getAccountKeys] of the Solana client library, as far as the filter
    depends on it. A legacy [Message] returns the one segment of its account
    keys whatever tables are supplied. For a [MessageV0] every lookup of
    the message must find its table among the accounts supplied (matched by
    key), and every index must be within the table; the key segments are
    the static keys, then the writable and the read-only keys loaded from
    the tables. It is one instance of the [getAccountKeys] collaborator. *)
Module Web3.

Fixpoint pickAddresses (tableAccount : AddressLookupTableAccount)
    (indexes : list nat) : Exn + list PublicKey :=
  match indexes with
  | [] => inr []
  | index :: rest =>
      match addresses tableAccount !! index with
      | None => inl (Error "Failed to find address for index in address lookup table")
      | Some address =>
          match pickAddresses tableAccount rest with
          | inl e => inl e
          | inr picked => inr (address :: picked)
          end
      end
  end.

Fixpoint resolveAddressTableLookups
    (lookups : list MessageAddressTableLookup)
    (addressLookupTableAccounts : list AddressLookupTableAccount)
  : Exn + (list PublicKey * list PublicKey) :=
  match lookups with
  | [] => inr ([], [])
  | tableLookup :: rest =>
      match list_find (λ account, key account = accountKey tableLookup)
                      addressLookupTableAccounts with
      | None => inl (Error "Failed to find address lookup table account for table key")
      | Some (_, tableAccount) =>
          match pickAddresses tableAccount (writableIndexes tableLookup) with
          | inl e => inl e
          | inr writable =>
              match pickAddresses tableAccount (readonlyIndexes tableLookup) with
              | inl e => inl e
              | inr readonly =>
                  match resolveAddressTableLookups rest addressLookupTableAccounts with
                  | inl e => inl e
                  | inr (ws, rs) => inr (writable ++ ws, readonly ++ rs)
                  end
              end
          end
      end
  end.

Definition getAccountKeys (message : VersionedMessage)
    (addressLookupTableAccounts : list AddressLookupTableAccount)
  : Exn + MessageAccountKeys :=
  match message with
  | Message accountKeys => inr {| keySegments := [accountKeys] |}
  | MessageV0 staticKeys tableLookups =>
      match resolveAddressTableLookups tableLookups
                                       addressLookupTableAccounts with
      | inl e => inl e
      | inr (writable, readonly) =>
          inr {| keySegments := [staticKeys; writable; readonly] |}
      end
  end.

End Web3.

(** ** A small market: concrete collaborators and transactions *)
Module Market.

Definition pk (s : string) : PublicKey := {| toBase58 := s |}.

Definition orcaMM : string := "882DFRCi5akKFyYxT4PP2vZkoQEGvm2Nsind2nPDuGqu".

(** One table is known to the provider, under the address [TableA]. *)
Definition tableA : AddressLookupTableAccount :=
  {| key := pk "TableA"; addresses := [pk "VaultB"; pk "Payer2"; pk "VaultC"] |}.

(** The clock starts at 1000 and advances by one at every read. *)
Definition clock (n : nat) : Z := 1000 + Z.of_nat n.

Definition collaborators : Collaborators := {|
  getLookupTable k := if bool_decide (k = pk "TableA") then Some tableA else None;
  getAccountKeys := Web3.getAccountKeys;
  isTokenAccountOfInterest s :=
    bool_decide (s ∈ ["VaultA"; "VaultB"; "VaultC"]);
  Date_now := clock;
|}.

Definition lookupOf (table : string) (ws rs : list nat) : MessageAddressTableLookup :=
  {| accountKey := pk table; writableIndexes := ws; readonlyIndexes := rs |}.

Definition mkTxn (sig : string) (static : list string)
    (lookups : list MessageAddressTableLookup) : VersionedTransaction :=
  {| signatures := [sig];
     message := MessageV0 (pk <$> static) lookups |}.

Definition stamp (t : Z) : Timings :=
  {| mempoolEnd := t; preSimEnd := 0; simEnd := 0; postSimEnd := 0;
     calcArbEnd := 0; buildBundleEnd := 0; bundleSent := 0 |}.

(** Static keys only, one vault of interest. *)
Definition txPlain : VersionedTransaction := mkTxn "sig1" ["Payer1"; "VaultA"] [].
(** Reaches two vaults through the known table. *)
Definition txViaTable : VersionedTransaction :=
  mkTxn "sig2" ["Payer2"; "VaultA"; "VaultA"] [lookupOf "TableA" [0] [2]].
(** References a table the provider does not know. *)
Definition txUnknownTable : VersionedTransaction :=
  mkTxn "sig3" ["Payer1"; "VaultA"] [lookupOf "TableZ" [0] []].
(** Index 7 is outside the known table. *)
Definition txBadIndex : VersionedTransaction :=
  mkTxn "sig4" ["Payer1"; "VaultA"] [lookupOf "TableA" [7] []].
(** Unknown table first, known table second. *)
Definition txUnknownThenKnown : VersionedTransaction :=
  mkTxn "sig5" ["Payer1"] [lookupOf "TableZ" [0] []; lookupOf "TableA" [0] []].
(** Touches the market maker on the skip list besides a vault. *)
Definition txOrca : VersionedTransaction :=
  mkTxn "sig6" ["VaultA"; orcaMM; "VaultB"] [].
(** Nothing of interest. *)
Definition txBoring : VersionedTransaction := mkTxn "sig7" ["Payer1"; "Payer2"] [].

Definition batchOf (t : Z) (txs : list VersionedTransaction) : MempoolUpdate :=
  {| txns := txs; updateTimings := stamp t |}.

(** The generator run on the given updates, from the start. *)
Definition run (updates : list MempoolUpdate) : (Exn + unit) * World :=
  preSimulationFilter (H := collaborators) updates initialWorld.

End Market.

(** ** Vocabulary of the properties *)

Section Vocabulary.
Context `{Collaborators}.

(** The provider knows the table a lookup refers to. *)
Definition resolves (lookup : MessageAddressTableLookup) : Prop :=
  is_Some (getLookupTable (accountKey lookup)).

(** The tables of the lookups that precede the first one the provider
    does not know; all of them when every lookup resolves. *)
Fixpoint resolvedTables (lookups : list MessageAddressTableLookup)
  : list AddressLookupTableAccount :=
  match lookups with
  | [] => []
  | lookup :: rest =>
      match getLookupTable (accountKey lookup) with
      | None => []
      | Some lut => lut :: resolvedTables rest
      end
  end.

(** The addresses the lookup loop asks the provider for, in order: it
    stops after the first one the provider does not know. *)
Fixpoint calledKeys (lookups : list MessageAddressTableLookup)
  : list PublicKey :=
  match lookups with
  | [] => []
  | lookup :: rest =>
      accountKey lookup ::
      match getLookupTable (accountKey lookup) with
      | None => []
      | Some _ => calledKeys rest
      end
  end.

(** The base58 strings of the key list the scan runs over, when
    [getAccountKeys] returns one for the transaction. *)
Definition expandedKeys (txn : VersionedTransaction) : option (list string) :=
  match getAccountKeys (message txn)
          (resolvedTables (addressTableLookups (message txn))) with
  | inl _ => None
  | inr accountKeys => Some (toBase58 <$> concat (keySegments accountKeys))
  end.

Definition skipListed (keyStr : string) : Prop :=
  keyStr ∈ SKIP_TX_IF_CONTAINS_ADDRESS.

#[global] Instance skipListed_dec keyStr : Decision (skipListed keyStr).
Proof. unfold skipListed. apply _. Defined.

Definition ofInterest (keyStr : string) : Prop :=
  isTokenAccountOfInterest keyStr = true.

#[global] Instance ofInterest_dec keyStr : Decision (ofInterest keyStr).
Proof. unfold ofInterest. apply _. Defined.

(** The set [s] after adding to it, in order, the keys of interest among
    [keyStrs]. *)
Definition collect (s : JsSet.t) (keyStrs : list string) : JsSet.t :=
  foldl (λ acc keyStr, JsSet.add keyStr acc) s (filter ofInterest keyStrs).

(** The record yielded for [txn] of a batch stamped [timings], when the
    clock reads [now]. *)
Definition filtered (timings : Timings) (txn : VersionedTransaction)
    (matched : JsSet.t) (now : Z) : FilteredTransaction :=
  {| txn := txn;
     accountsOfInterest := JsSet.spread matched;
     timings := {| mempoolEnd := mempoolEnd timings; preSimEnd := now;
                   simEnd := 0; postSimEnd := 0; calcArbEnd := 0;
                   buildBundleEnd := 0; bundleSent := 0 |} |}.

(** A transaction passes the filter: its key list is built, has no
    skip-listed key and has a key of interest. *)
Definition passes (txn : VersionedTransaction) : Prop :=
  ∃ keyStrs, expandedKeys txn = Some keyStrs
             ∧ Forall (λ k, ¬ skipListed k) keyStrs
             ∧ Exists ofInterest keyStrs.

End Vocabulary.

(** The world after further resolver calls, scanned keys, log lines, clock
    reads and yields. *)
Definition afterCalls (ks : list PublicKey) (w : World) : World :=
  {| resolverCalls := resolverCalls w ++ ks; scanned := scanned w;
     logged := logged w; ticks := ticks w; yielded := yielded w |}.

Definition afterScan (keyStrs : list string) (w : World) : World :=
  {| resolverCalls := resolverCalls w; scanned := scanned w ++ keyStrs;
     logged := logged w; ticks := ticks w; yielded := yielded w |}.

Definition afterLog (evs : list LogEvent) (w : World) : World :=
  {| resolverCalls := resolverCalls w; scanned := scanned w;
     logged := logged w ++ evs; ticks := ticks w; yielded := yielded w |}.

Definition afterClock (w : World) : World :=
  {| resolverCalls := resolverCalls w; scanned := scanned w;
     logged := logged w; ticks := S (ticks w); yielded := yielded w |}.

Definition afterYield (fts : list FilteredTransaction) (w : World) : World :=
  {| resolverCalls := resolverCalls w; scanned := scanned w;
     logged := logged w; ticks := ticks w; yielded := yielded w ++ fts |}.

(** Position of the first occurrence of [x] in [l]. *)
Definition firstIndex (x : string) (l : list string) : option nat :=
  fst <$> list_find (λ y, y = x) l.

(** Later-stage timestamps are still unset. *)
Definition laterStagesZero (t : Timings) : Prop :=
  simEnd t = 0%Z ∧ postSimEnd t = 0%Z ∧ calcArbEnd t = 0%Z
  ∧ buildBundleEnd t = 0%Z ∧ bundleSent t = 0%Z.

(** ** What one iteration of the transaction loop does

    The four ways [processTxn] can end, with the world each leaves. *)
Section Outcome.
Context `{Collaborators}.

(** The world once the lookup loop of [tx] is over. *)
Definition lookedUp (tx : VersionedTransaction) (w : World) : World :=
  afterCalls (calledKeys (addressTableLookups (message tx))) w.

(** The world once [tx] has been yielded with the accounts [matched]. *)
Definition emitted (timings : Timings) (tx : VersionedTransaction)
    (keyStrs : list string) (w : World) : World :=
  let matched := collect JsSet.empty keyStrs in
  afterYield [filtered timings tx matched (Date_now (ticks w))]
    (afterClock (afterLog [found (length matched)]
       (afterScan keyStrs (lookedUp tx w)))).

Inductive TxnRun (timings : Timings) (tx : VersionedTransaction) (w : World)
  : (Exn + unit) * World → Prop :=
| run_throws e :
    getAccountKeys (message tx)
      (resolvedTables (addressTableLookups (message tx))) = inl e →
    TxnRun timings tx w
      (inl nullKeySegments, afterLog [warning e] (lookedUp tx w))
| run_vetoed pre k post :
    expandedKeys tx = Some (pre ++ k :: post) →
    Forall (λ s, ¬ skipListed s) pre →
    skipListed k →
    TxnRun timings tx w (inr (), afterScan (pre ++ [k]) (lookedUp tx w))
| run_no_match keyStrs :
    expandedKeys tx = Some keyStrs →
    Forall (λ s, ¬ skipListed s) keyStrs →
    Forall (λ s, ¬ ofInterest s) keyStrs →
    TxnRun timings tx w (inr (), afterScan keyStrs (lookedUp tx w))
| run_yields keyStrs :
    expandedKeys tx = Some keyStrs →
    Forall (λ s, ¬ skipListed s) keyStrs →
    Exists ofInterest keyStrs →
    TxnRun timings tx w (inr (), emitted timings tx keyStrs w).

End Outcome.

(** The record [ft] was built from a batch stamped [batch] at clock read
    number [n]. *)
Definition stampedAt `{Collaborators} (batch : Timings) (n : nat)
    (ft : FilteredTransaction) : Prop :=
  mempoolEnd (timings ft) = mempoolEnd batch
  ∧ preSimEnd (timings ft) = Date_now n
  ∧ laterStagesZero (timings ft).

(** The record [ft] is the one the filter builds for its transaction, in
    a batch stamped [batch], at clock read number [n]. *)
Definition builtAt `{Collaborators} (batch : Timings) (n : nat)
    (ft : FilteredTransaction) : Prop :=
  ∃ keyStrs, expandedKeys (txn ft) = Some keyStrs
             ∧ Forall (λ s, ¬ skipListed s) keyStrs
             ∧ Exists ofInterest keyStrs
             ∧ ft = filtered batch (txn ft) (collect JsSet.empty keyStrs)
                             (Date_now n).

(** A run from [w] to [w'] hands [new] to the consumer, in this order, and
    reads the clock once for each. *)
Definition extends (w w' : World) (new : list FilteredTransaction) : Prop :=
  yielded w' = yielded w ++ new ∧ ticks w' = ticks w + length new.

(** ** What the iteration does with the answer of [getAccountKeys]

    [FilterRun batch tx w answer outcome]: from the world [w] reached when the
    lookup loop is over, an iteration to which [getAccountKeys] gives
    [answer] ends in [outcome]. A throw is logged and followed by the call
    on [null]; a key list is scanned up to its first skip-listed key, or
    to its end, and the transaction is yielded when the scan reaches the
    end with an account of interest. *)
Inductive FilterRun `{Collaborators} (batch : Timings)
    (tx : VersionedTransaction) (w : World)
  : Exn + MessageAccountKeys → (Exn + unit) * World → Prop :=
| filter_throws e :
    FilterRun batch tx w (inl e) (inl nullKeySegments, afterLog [warning e] w)
| filter_vetoed accountKeys pre k post :
    toBase58 <$> concat (keySegments accountKeys) = pre ++ k :: post →
    Forall (λ s, ¬ skipListed s) pre →
    skipListed k →
    FilterRun batch tx w (inr accountKeys) (inr (), afterScan (pre ++ [k]) w)
| filter_no_match accountKeys :
    Forall (λ s, ¬ skipListed s) (toBase58 <$> concat (keySegments accountKeys)) →
    Forall (λ s, ¬ ofInterest s) (toBase58 <$> concat (keySegments accountKeys)) →
    FilterRun batch tx w (inr accountKeys)
      (inr (), afterScan (toBase58 <$> concat (keySegments accountKeys)) w)
| filter_yields accountKeys :
    Forall (λ s, ¬ skipListed s) (toBase58 <$> concat (keySegments accountKeys)) →
    Exists ofInterest (toBase58 <$> concat (keySegments accountKeys)) →
    FilterRun batch tx w (inr accountKeys)
      (inr (),
       afterYield
         [filtered batch tx
            (collect JsSet.empty (toBase58 <$> concat (keySegments accountKeys)))
            (Date_now (ticks w))]
         (afterClock
            (afterLog
               [found (length (collect JsSet.empty
                                 (toBase58 <$> concat (keySegments accountKeys))))]
               (afterScan (toBase58 <$> concat (keySegments accountKeys)) w)))).

(** The transactions of the batches laid end to end, each with the
    [mempoolEnd] of the batch it comes in. *)
Definition stampedTxns (updates : list MempoolUpdate)
  : list (VersionedTransaction * Z) :=
  updates ≫= λ update,
    (λ tx, (tx, mempoolEnd (updateTimings update))) <$> txns update.

(** What a record says of where it comes from: its transaction and its
    [mempoolEnd]. *)
Definition origin (ft : FilteredTransaction) : VersionedTransaction * Z :=
  (txn ft, mempoolEnd (timings ft)).

(** A legacy transaction of the small market. *)
Definition txLegacy : VersionedTransaction :=
  {| signatures := ["sig9"];
     message := Message [Market.pk "Payer1"; Market.pk "VaultA"] |}.

(** A transaction of the small market whose first table is known and whose
    second is not. *)
Definition txKnownThenUnknown : VersionedTransaction :=
  Market.mkTxn "sig8" ["Payer1"]
    [Market.lookupOf "TableA" [0] []; Market.lookupOf "TableZ" [0] []].

(** ** Vocabulary of whole runs *)

Section RunVocabulary.
Context `{Collaborators}.

(** [getAccountKeys] returns a key list for the transaction. *)
Definition hasKeys (tx : VersionedTransaction) : Prop :=
  is_Some (expandedKeys tx).

#[global] Instance hasKeys_dec tx : Decision (hasKeys tx).
Proof. unfold hasKeys. apply _. Defined.

#[global] Instance passes_dec tx : Decision (passes tx).
Proof.
  unfold passes. destruct (expandedKeys tx) as [keyStrs|].
  - destruct (decide (Forall (λ k, ¬ skipListed k) keyStrs
                      ∧ Exists ofInterest keyStrs)) as [Hyes|Hno].
    + left. exists keyStrs. split; [reflexivity|exact Hyes].
    + right. intros (ks & Heq & Hrest). injection Heq as <-. exact (Hno Hrest).
  - right. intros (ks & Heq & _). discriminate Heq.
Defined.

(** The addresses the provider is asked for while [tx] is processed. *)
Definition lookupCalls (tx : VersionedTransaction) : list PublicKey :=
  calledKeys (addressTableLookups (message tx)).

(** The transactions that precede the first one without a key list. *)
Fixpoint processed (txs : list VersionedTransaction)
  : list VersionedTransaction :=
  match txs with
  | [] => []
  | tx :: rest => if decide (hasKeys tx) then tx :: processed rest else []
  end.

(** The transactions up to and including the first one without a key
    list. *)
Fixpoint attempted (txs : list VersionedTransaction)
  : list VersionedTransaction :=
  match txs with
  | [] => []
  | tx :: rest => tx :: if decide (hasKeys tx) then attempted rest else []
  end.

End RunVocabulary.

(** The debug line written for a record. *)
Definition announce (ft : FilteredTransaction) : LogEvent :=
  found (length (accountsOfInterest ft)).

(** A run from [w] to [w'] yields [new], reading the clock once for each,
    writes one debug line per record and then the lines [tail], and asks the
    provider for [calls]. *)
Definition advanced (w w' : World) (new : list FilteredTransaction)
    (calls : list PublicKey) (tail : list LogEvent) : Prop :=
  extends w w' new
  ∧ logged w' = logged w ++ (announce <$> new) ++ tail
  ∧ resolverCalls w' = resolverCalls w ++ calls.

(** ** The bounded relay *)

(** Modelled from the spec: [dropBeyondHighWaterMark] is imported from
    [./utils.js], whose source is missing. The spec describes a buffer of a
    fixed positive capacity between the producer and the consumer: a batch
    that arrives while the buffer is at capacity makes the oldest buffered
    batch be discarded, the consumer takes batches oldest first, and
    discarded batches are counted. Arrivals and takes interleave freely,
    each of them atomic. *)
Module Relay.
Section Relay.
Context {A : Type}.

Record State := {
  buffer : list A;    (** produced and not yet consumed, oldest first *)
  evicted : list A;   (** discarded so far, oldest first *)
}.

Definition initial : State := {| buffer := []; evicted := [] |}.

(** Modelled from the spec: a batch arrives from the producer; "when a new
    batch arrives and the buffer is already at capacity, the oldest
    buffered batch is discarded". The body of [dropBeyondHighWaterMark] is
    missing. *)
Definition arrive (capacity : nat) (b : A) (st : State) : State :=
  if decide (capacity ≤ length (buffer st))
  then {| buffer := drop 1 (buffer st) ++ [b];
          evicted := evicted st ++ take 1 (buffer st) |}
  else {| buffer := buffer st ++ [b]; evicted := evicted st |}.

(** Modelled from the spec: the consumer asks for the next batch and gets
    the oldest buffered one; [None] when nothing is buffered. The body of
    [dropBeyondHighWaterMark] is missing. *)
Definition consume (st : State) : option A * State :=
  match buffer st with
  | [] => (None, st)
  | b :: rest => (Some b, {| buffer := rest; evicted := evicted st |})
  end.

Inductive Event :=
| Arrive (b : A)
| Consume.

Definition step (capacity : nat) (st : State) (ev : Event) : State :=
  match ev with
  | Arrive b => arrive capacity b st
  | Consume => (consume st).2
  end.

(** The state after a history of events, from [st]. *)
Definition run (capacity : nat) (history : list Event) (st : State) : State :=
  foldl (step capacity) st history.

(** Modelled from the spec: the relay made by
    [dropBeyondHighWaterMark(iterable, highWaterMark, name)], whose body is
    missing, after a history of arrivals from [iterable] and of takes by
    the consumer. *)
Definition dropBeyondHighWaterMark (highWaterMark : nat)
    (history : list Event) : State :=
  run highWaterMark history initial.

(** What [n] successive takes hand to the consumer. *)
Fixpoint takeN (n : nat) (st : State) : list A :=
  match n with
  | 0 => []
  | S n =>
      match consume st with
      | (None, _) => []
      | (Some b, st') => b :: takeN n st'
      end
  end.

End Relay.
Arguments State : clear implicits.
Arguments Event : clear implicits.
End Relay.

(** * Properties *)

(** ** Running the monad *)

Ltac gen_unfold :=
  unfold mbind, Gen_bind, mret, Gen_ret, mthrow, Gen_throw.

Lemma afterCalls_nil w : afterCalls [] w = w.
Proof. destruct w; unfold afterCalls; simpl. by rewrite app_nil_r. Qed.

Lemma afterScan_nil w : afterScan [] w = w.
Proof. destruct w; unfold afterScan; simpl. by rewrite app_nil_r. Qed.

Lemma afterCalls_cons k ks w :
  afterCalls ks (afterCalls [k] w) = afterCalls (k :: ks) w.
Proof. unfold afterCalls; simpl. by rewrite <- app_assoc. Qed.

Lemma afterScan_cons k ks w :
  afterScan ks (afterScan [k] w) = afterScan (k :: ks) w.
Proof. unfold afterScan; simpl. by rewrite <- app_assoc. Qed.

Section Loops.
Context `{Collaborators}.

(** The lookup loop always returns: with the tables found before the
    first unknown one, after the calls of [calledKeys]. *)
Lemma resolveLookups_run lookups acc w :
  resolveLookups lookups acc w
  = (inr (acc ++ resolvedTables lookups), afterCalls (calledKeys lookups) w).
Proof.
  revert acc w. induction lookups as [|lookup rest IH]; intros acc w; simpl.
  - gen_unfold. by rewrite app_nil_r, afterCalls_nil.
  - gen_unfold. unfold await_getLookupTable.
    destruct (getLookupTable (accountKey lookup)) as [lut|].
    + rewrite IH. f_equal.
      * by rewrite <- app_assoc.
      * apply afterCalls_cons.
    + by rewrite app_nil_r.
Qed.

Lemma collect_cons acc k ks :
  collect acc (k :: ks)
  = collect (if isTokenAccountOfInterest k then JsSet.add k acc else acc) ks.
Proof.
  unfold collect. rewrite filter_cons.
  destruct (decide (ofInterest k)) as [Hk|Hk]; unfold ofInterest in Hk.
  - by rewrite Hk.
  - by destruct (isTokenAccountOfInterest k).
Qed.

(** The scan stops at the first skip-listed key. *)
Lemma scanKeys_skip keys pre k post acc w :
  toBase58 <$> keys = pre ++ k :: post →
  Forall (λ s, ¬ skipListed s) pre →
  skipListed k →
  scanKeys keys acc w = (inr (true, collect acc pre), afterScan (pre ++ [k]) w).
Proof.
  revert pre acc w.
  induction keys as [|key rest IH]; intros pre acc w Hks Hpre Hk.
  - by destruct pre.
  - destruct pre as [|p pre]; simpl in Hks; injection Hks as Hhd Htl.
    + simpl. gen_unfold. unfold visit. rewrite Hhd.
      rewrite bool_decide_eq_true_2 by exact Hk. done.
    + apply Forall_cons in Hpre as [Hp Hpre].
      simpl. gen_unfold. unfold visit. rewrite Hhd.
      rewrite bool_decide_eq_false_2 by exact Hp.
      rewrite (IH pre _ _ Htl Hpre Hk). f_equal.
      * by rewrite collect_cons.
      * apply afterScan_cons.
Qed.

(** Without a skip-listed key the scan visits every key. *)
Lemma scanKeys_clean keys acc w :
  Forall (λ s, ¬ skipListed s) (toBase58 <$> keys) →
  scanKeys keys acc w
  = (inr (false, collect acc (toBase58 <$> keys)),
     afterScan (toBase58 <$> keys) w).
Proof.
  revert acc w. induction keys as [|key rest IH]; intros acc w Hks.
  - simpl. gen_unfold. by rewrite afterScan_nil.
  - rewrite fmap_cons in Hks. apply Forall_cons in Hks as [Hk Hks].
    simpl. gen_unfold. unfold visit.
    rewrite bool_decide_eq_false_2 by exact Hk.
    rewrite (IH _ _ Hks). f_equal.
    + by rewrite collect_cons.
    + apply afterScan_cons.
Qed.

End Loops.

(** ** The set of matched accounts *)

Lemma JsSet_elem_of_add x y (s : JsSet.t) : y ∈ JsSet.add x s ↔ y = x ∨ y ∈ s.
Proof.
  unfold JsSet.add. case_bool_decide as Hx.
  - split; [by right|]. intros [->|Hy]; done.
  - rewrite elem_of_app, list_elem_of_singleton. tauto.
Qed.

Lemma JsSet_NoDup_add x (s : JsSet.t) : NoDup s → NoDup (JsSet.add x s).
Proof.
  intros Hs. unfold JsSet.add. case_bool_decide as Hx; [done|].
  apply NoDup_app. split_and!; [done| |apply NoDup_singleton].
  intros y Hy ->%list_elem_of_singleton. done.
Qed.

Section Matched.
Context `{Collaborators}.

Lemma collect_snoc s keyStrs k :
  collect s (keyStrs ++ [k])
  = if isTokenAccountOfInterest k
    then JsSet.add k (collect s keyStrs) else collect s keyStrs.
Proof.
  unfold collect. rewrite filter_app, foldl_app, filter_cons, filter_nil.
  destruct (decide (ofInterest k)) as [Hk|Hk]; unfold ofInterest in Hk.
  - by rewrite Hk.
  - by destruct (isTokenAccountOfInterest k).
Qed.

Lemma elem_of_collect s keyStrs y :
  y ∈ collect s keyStrs ↔ y ∈ s ∨ (y ∈ keyStrs ∧ ofInterest y).
Proof.
  induction keyStrs as [|k ks IH] using rev_ind.
  - unfold collect; simpl. split; [by left|]. intros [?|[?%elem_of_nil ?]]; done.
  - rewrite collect_snoc, elem_of_app, list_elem_of_singleton.
    destruct (isTokenAccountOfInterest k) eqn:Hk.
    + rewrite JsSet_elem_of_add, IH. unfold ofInterest.
      intuition (subst; auto).
    + rewrite IH. unfold ofInterest.
      intuition (subst; auto; congruence).
Qed.

Lemma NoDup_collect s keyStrs : NoDup s → NoDup (collect s keyStrs).
Proof.
  intros Hs. induction keyStrs as [|k ks IH] using rev_ind; [done|].
  rewrite collect_snoc. destruct (isTokenAccountOfInterest k); [|done].
  by apply JsSet_NoDup_add.
Qed.

Lemma collect_nil_iff keyStrs :
  collect JsSet.empty keyStrs = [] ↔ Forall (λ k, ¬ ofInterest k) keyStrs.
Proof.
  rewrite Forall_forall. split.
  - intros Hnil k Hk Hint.
    assert (k ∈ collect JsSet.empty keyStrs) as Hin
      by (apply elem_of_collect; by right).
    rewrite Hnil in Hin. by apply elem_of_nil in Hin.
  - intros Hno. destruct (collect JsSet.empty keyStrs) as [|m ms] eqn:Hm; [done|].
    assert (m ∈ collect JsSet.empty keyStrs) as Hin by (rewrite Hm; left).
    apply elem_of_collect in Hin as [Hin|[Hin Hint]].
    + by apply elem_of_nil in Hin.
    + by destruct (Hno m Hin).
Qed.

End Matched.

(** ** First occurrences *)

Lemma firstIndex_elem_of x l :
  x ∈ l → ∃ i, firstIndex x l = Some i ∧ i < length l.
Proof.
  intros Hx. unfold firstIndex.
  destruct (list_find_elem_of (λ y, y = x) l x Hx eq_refl) as [[i y] Hfind].
  rewrite Hfind. exists i. split; [done|].
  apply list_find_Some in Hfind as (Hi & _ & _).
  by apply lookup_lt_Some in Hi.
Qed.

Lemma firstIndex_app_l x l more i :
  firstIndex x l = Some i → firstIndex x (l ++ more) = Some i.
Proof.
  unfold firstIndex. intros Hi.
  destruct (list_find _ l) as [[i' y]|] eqn:Hfind; [|done].
  by rewrite (list_find_app_l _ _ more _ _ Hfind).
Qed.

Lemma firstIndex_fresh x l : x ∉ l → firstIndex x (l ++ [x]) = Some (length l).
Proof.
  intros Hx. unfold firstIndex. rewrite list_find_app_r.
  - simpl. by rewrite decide_True.
  - apply list_find_None, Forall_forall. by intros y Hy ->.
Qed.

Section FirstSeen.
Context `{Collaborators}.

(** An account collected earlier was first met earlier in the key list. *)
Lemma collect_first_seen keyStrs i j a b :
  collect JsSet.empty keyStrs !! i = Some a →
  collect JsSet.empty keyStrs !! j = Some b →
  i < j →
  ∃ ia ib, firstIndex a keyStrs = Some ia
           ∧ firstIndex b keyStrs = Some ib ∧ ia < ib.
Proof.
  revert i j a b. induction keyStrs as [|k ks IH] using rev_ind;
    intros i j a b Ha Hb Hij.
  - done.
  - assert (∀ i j a b,
               collect JsSet.empty ks !! i = Some a →
               collect JsSet.empty ks !! j = Some b → i < j →
               ∃ ia ib, firstIndex a (ks ++ [k]) = Some ia
                        ∧ firstIndex b (ks ++ [k]) = Some ib ∧ ia < ib) as Hold.
    { intros i' j' a' b' Ha' Hb' Hij'.
      destruct (IH _ _ _ _ Ha' Hb' Hij') as (ia & ib & Hia & Hib & Hlt).
      exists ia, ib. eauto using firstIndex_app_l. }
    rewrite collect_snoc in Ha, Hb.
    destruct (isTokenAccountOfInterest k) eqn:Hk; [|by eapply Hold].
    unfold JsSet.add in Ha, Hb.
    destruct (decide (k ∈ collect JsSet.empty ks)) as [Hin|Hin].
    { rewrite bool_decide_eq_true_2 in Ha, Hb by done. by eapply Hold. }
    rewrite bool_decide_eq_false_2 in Ha, Hb by done.
    destruct (decide (j < length (collect JsSet.empty ks))) as [Hj|Hj].
    + rewrite lookup_app_l in Ha by lia. rewrite lookup_app_l in Hb by lia.
      by eapply Hold.
    + assert (j = length (collect JsSet.empty ks) ∧ b = k) as [-> ->].
      { apply lookup_lt_Some in Hb as Hlen.
        rewrite length_app in Hlen. simpl in Hlen.
        assert (j = length (collect JsSet.empty ks)) as -> by lia.
        split; [done|]. rewrite lookup_app_r in Hb by lia.
        rewrite Nat.sub_diag in Hb. simpl in Hb. congruence. }
      rewrite lookup_app_l in Ha by lia.
      assert (a ∈ ks) as Hain.
      { apply list_elem_of_lookup_2 in Ha.
        apply elem_of_collect in Ha as [Ha|[Ha _]]; [|done].
        by apply elem_of_nil in Ha. }
      assert (k ∉ ks) as Hfresh.
      { intros Hkin. apply Hin, elem_of_collect. by right. }
      destruct (firstIndex_elem_of a ks Hain) as (ia & Hia & Hlt).
      exists ia, (length ks). split_and!.
      * by apply firstIndex_app_l.
      * by apply firstIndex_fresh.
      * done.
Qed.

End FirstSeen.

(** ** One transaction *)

Section Transaction.
Context `{Collaborators}.
Implicit Types (txn : VersionedTransaction) (w : World) (timings : Timings).

(** When [getAccountKeys] throws, the warning is logged and the scan then
    dereferences [null]: the exception leaves [processTxn]. *)
Lemma processTxn_throws timings txn w e :
  getAccountKeys (message txn)
    (resolvedTables (addressTableLookups (message txn))) = inl e →
  processTxn timings txn w
  = (inl nullKeySegments, afterLog [warning e] (lookedUp txn w)).
Proof.
  intros He. unfold processTxn, expandAndFilter. gen_unfold.
  rewrite resolveLookups_run. simpl.
  unfold tryGetAccountKeys. rewrite He. gen_unfold. reflexivity.
Qed.

Lemma processTxn_skip timings txn w pre k post :
  expandedKeys txn = Some (pre ++ k :: post) →
  Forall (λ s, ¬ skipListed s) pre →
  skipListed k →
  processTxn timings txn w
  = (inr (), afterScan (pre ++ [k]) (lookedUp txn w)).
Proof.
  unfold expandedKeys. intros Hks Hpre Hk.
  destruct (getAccountKeys _ _) as [e|ak] eqn:Hak; [done|].
  injection Hks as Hks.
  unfold processTxn, expandAndFilter. gen_unfold.
  rewrite resolveLookups_run. simpl.
  unfold tryGetAccountKeys. rewrite Hak. gen_unfold. simpl.
  by rewrite (scanKeys_skip _ _ _ _ _ _ Hks Hpre Hk).
Qed.

Lemma processTxn_clean timings txn w keyStrs :
  expandedKeys txn = Some keyStrs →
  Forall (λ s, ¬ skipListed s) keyStrs →
  processTxn timings txn w
  = if decide (collect JsSet.empty keyStrs = [])
    then (inr (), afterScan keyStrs (lookedUp txn w))
    else (inr (), emitted timings txn keyStrs w).
Proof.
  unfold expandedKeys. intros Hks Hclean.
  destruct (getAccountKeys _ _) as [e|ak] eqn:Hak; [done|].
  injection Hks as <-.
  unfold processTxn, expandAndFilter. gen_unfold.
  rewrite resolveLookups_run. simpl.
  unfold tryGetAccountKeys. rewrite Hak. gen_unfold. simpl.
  rewrite (scanKeys_clean _ _ _ Hclean). simpl.
  unfold emitted.
  destruct (collect JsSet.empty _) as [|m ms] eqn:Hm; simpl; reflexivity.
Qed.

(** [expandedKeys] is what the lookup loop followed by the [try] block
    computes. *)
Lemma expansion_run txn w :
  (addressLookupTableAccounts ←
     resolveLookups (addressTableLookups (message txn)) [];
   accountKeys ← tryGetAccountKeys txn addressLookupTableAccounts;
   mret ((λ ak, toBase58 <$> concat (keySegments ak)) <$> accountKeys)) w
  = (inr (expandedKeys txn),
     match getAccountKeys (message txn)
             (resolvedTables (addressTableLookups (message txn))) with
     | inl e => afterLog [warning e] (lookedUp txn w)
     | inr _ => lookedUp txn w
     end).
Proof.
  gen_unfold. rewrite resolveLookups_run. simpl.
  unfold tryGetAccountKeys, expandedKeys.
  by destruct (getAccountKeys _ _).
Qed.

Lemma skip_split (keyStrs : list string) :
  Forall (λ s, ¬ skipListed s) keyStrs
  ∨ ∃ pre k post, keyStrs = pre ++ k :: post
                  ∧ Forall (λ s, ¬ skipListed s) pre ∧ skipListed k.
Proof.
  induction keyStrs as [|k ks IH]; [by left|].
  destruct (decide (k ∈ SKIP_TX_IF_CONTAINS_ADDRESS)) as [Hk|Hk].
  - right. exists [], k, ks. by split_and!.
  - destruct IH as [IH|(pre & k' & post & -> & Hpre & Hk')].
    + left. by constructor.
    + right. exists (k :: pre), k', post. split_and!; [done| |done].
      by constructor.
Qed.

(** Every iteration ends in one of the four ways of [TxnRun]. *)
Lemma processTxn_run timings txn w :
  TxnRun timings txn w (processTxn timings txn w).
Proof.
  destruct (getAccountKeys (message txn)
              (resolvedTables (addressTableLookups (message txn))))
    as [e|ak] eqn:Hak.
  - rewrite (processTxn_throws _ _ _ _ Hak). by constructor.
  - assert (expandedKeys txn = Some (toBase58 <$> concat (keySegments ak)))
      as Hks by (unfold expandedKeys; by rewrite Hak).
    destruct (skip_split (toBase58 <$> concat (keySegments ak)))
      as [Hclean|(pre & k & post & Heq & Hpre & Hk)].
    + rewrite (processTxn_clean _ _ _ _ Hks Hclean).
      destruct (decide _) as [Hnil|Hnil].
      * apply run_no_match; [done..|]. by apply collect_nil_iff.
      * apply run_yields; [done..|].
        destruct (decide (Exists ofInterest
                            (toBase58 <$> concat (keySegments ak))))
          as [Hex|Hnex]; [done|].
        exfalso. apply Hnil, collect_nil_iff.
        apply not_Exists_Forall in Hnex; [exact Hnex|apply _].
    + rewrite Heq in Hks.
      rewrite (processTxn_skip _ _ _ _ _ _ Hks Hpre Hk).
      by eapply run_vetoed.
Qed.

End Transaction.


(** ** The transaction loop and the batch loop *)

Lemma extends_refl w : extends w w [].
Proof. unfold extends. simpl. by rewrite app_nil_r, Nat.add_0_r. Qed.

Lemma extends_trans w1 w2 w3 new1 new2 :
  extends w1 w2 new1 → extends w2 w3 new2 → extends w1 w3 (new1 ++ new2).
Proof.
  unfold extends. intros [Hy1 Ht1] [Hy2 Ht2].
  rewrite Hy2, Hy1, Ht2, Ht1, length_app, <- app_assoc. split; [done|lia].
Qed.

(** A step that neither yields nor reads the clock. *)
Ltac quiet := split; simpl; [by rewrite app_nil_r|lia].

Section Pipeline.
Context `{Collaborators}.

Lemma builtAt_stampedAt batch n ft : builtAt batch n ft → stampedAt batch n ft.
Proof. intros (ks & _ & _ & _ & ->). by repeat split. Qed.

(** An iteration yields nothing, or the one record of its transaction. *)
Lemma processTxn_extends batch tx w :
  ∃ new, extends w (processTxn batch tx w).2 new
         ∧ (new = []
            ∨ ∃ ft, new = [ft] ∧ txn ft = tx ∧ builtAt batch (ticks w) ft).
Proof.
  destruct (processTxn_run batch tx w) as [e He|pre k post Hks Hpre Hk
    |keyStrs Hks Hclean Hno|keyStrs Hks Hclean Hsome]; simpl.
  - exists []. split; [quiet|by left].
  - exists []. split; [quiet|by left].
  - exists []. split; [quiet|by left].
  - exists [filtered batch tx (collect JsSet.empty keyStrs) (Date_now (ticks w))].
    split; [split; simpl; [done|lia]|].
    right. eexists. split_and!; [reflexivity|reflexivity|]. by exists keyStrs.
Qed.

Lemma forTxns_cons batch tx rest w :
  forTxns batch (tx :: rest) w
  = match processTxn batch tx w with
    | (inl e, w1) => (inl e, w1)
    | (inr _, w1) => forTxns batch rest w1
    end.
Proof. reflexivity. Qed.

Lemma preSimulationFilter_cons update rest w :
  preSimulationFilter (update :: rest) w
  = match forTxns (updateTimings update) (txns update) w with
    | (inl e, w1) => (inl e, w1)
    | (inr _, w1) => preSimulationFilter rest w1
    end.
Proof. reflexivity. Qed.

(** The records of one batch come out in the order of its transactions,
    each stamped from the batch and from its own clock read. *)
Lemma forTxns_extends batch txs w :
  ∃ new, extends w (forTxns batch txs w).2 new
         ∧ txn <$> new `sublist_of` txs
         ∧ ∀ i ft, new !! i = Some ft →
             builtAt batch (ticks w + i) ft ∧ txn ft ∈ txs.
Proof.
  revert w. induction txs as [|tx rest IH]; intros w.
  - exists []. split_and!; [apply extends_refl|done|done].
  - rewrite forTxns_cons.
    destruct (processTxn_extends batch tx w) as (new1 & Hext1 & Hnew1).
    assert (txn <$> new1 `sublist_of` [tx]
            ∧ ∀ i ft, new1 !! i = Some ft →
                builtAt batch (ticks w + i) ft ∧ txn ft = tx) as [Hsub1 Hst1].
    { destruct Hnew1 as [->|(ft1 & -> & Htx & Hbuilt)].
      - split; [apply sublist_nil_l|done].
      - split; [simpl; by rewrite Htx|]. intros [|i] ft Hft; [|done].
        injection Hft as <-. by rewrite Nat.add_0_r. }
    destruct (processTxn batch tx w) as [[e|[]] w1]; simpl in Hext1.
    + exists new1. split_and!; [done| |].
      * change (tx :: rest) with ([tx] ++ rest).
        rewrite <- (app_nil_r (txn <$> new1)).
        apply sublist_app; [done|apply sublist_nil_l].
      * intros i ft Hft. destruct (Hst1 i ft Hft) as [? <-].
        split; [done|left].
    + destruct (IH w1) as (new2 & Hext2 & Hsub2 & Hst2).
      exists (new1 ++ new2). split_and!.
      * by eapply extends_trans.
      * rewrite fmap_app. change (tx :: rest) with ([tx] ++ rest).
        by apply sublist_app.
      * intros i ft [Hft|[Hlen Hft]]%lookup_app_Some.
        -- destruct (Hst1 i ft Hft) as [? <-]. split; [done|left].
        -- destruct (Hst2 _ ft Hft) as [Hst Hin].
           destruct Hext1 as [_ Ht1]. rewrite Ht1 in Hst.
           replace (ticks w + length new1 + (i - length new1))
             with (ticks w + i) in Hst by lia.
           split; [done|by right].
Qed.

(** The records of a run come out batch after batch. *)
Lemma preSimulationFilter_extends updates w :
  ∃ new, extends w (preSimulationFilter updates w).2 new
         ∧ txn <$> new `sublist_of` (updates ≫= txns)
         ∧ ∀ i ft, new !! i = Some ft →
             ∃ update, update ∈ updates ∧ txn ft ∈ txns update
                       ∧ builtAt (updateTimings update) (ticks w + i) ft.
Proof.
  revert w. induction updates as [|update rest IH]; intros w.
  - exists []. split_and!; [apply extends_refl|done|done].
  - rewrite preSimulationFilter_cons.
    destruct (forTxns_extends (updateTimings update) (txns update) w)
      as (new1 & Hext1 & Hsub1 & Hst1).
    destruct (forTxns _ _ w) as [[e|[]] w1]; simpl in Hext1.
    + exists new1. split_and!; [done| |].
      * rewrite bind_cons, <- (app_nil_r (txn <$> new1)).
        apply sublist_app; [done|apply sublist_nil_l].
      * intros i ft Hft. destruct (Hst1 i ft Hft) as [? ?].
        exists update. split_and!; [left|done|done].
    + destruct (IH w1) as (new2 & Hext2 & Hsub2 & Hst2).
      exists (new1 ++ new2). split_and!.
      * by eapply extends_trans.
      * rewrite fmap_app, bind_cons. by apply sublist_app.
      * intros i ft [Hft|[Hlen Hft]]%lookup_app_Some.
        -- destruct (Hst1 i ft Hft) as [? ?].
           exists update. split_and!; [left|done|done].
        -- destruct (Hst2 _ ft Hft) as (u & Hu & Hin & Hst).
           destruct Hext1 as [_ Ht1]. rewrite Ht1 in Hst.
           replace (ticks w + length new1 + (i - length new1))
             with (ticks w + i) in Hst by lia.
           exists u. split_and!; [by right|done|done].
Qed.

End Pipeline.

Lemma accountsOfInterest_filtered `{Collaborators} batch tx matched now :
  accountsOfInterest (filtered batch tx matched now) = matched.
Proof. reflexivity. Qed.

(** A transaction that passes is yielded, and the loop goes on. *)
Lemma processTxn_passes `{Collaborators} batch tx w :
  passes tx →
  ∃ keyStrs, expandedKeys tx = Some keyStrs
             ∧ processTxn batch tx w = (inr (), emitted batch tx keyStrs w).
Proof.
  intros (keyStrs & Hks & Hclean & Hsome). exists keyStrs. split; [done|].
  rewrite (processTxn_clean _ _ _ _ Hks Hclean).
  destruct (decide _) as [Hnil|Hnil]; [|done].
  apply collect_nil_iff in Hnil. apply Exists_exists in Hsome as (k & Hk & Hint).
  rewrite Forall_forall in Hnil. by destruct (Hnil k Hk).
Qed.

Lemma forTxns_all_pass `{Collaborators} batch txs w :
  Forall passes txs →
  ∃ w' new, forTxns batch txs w = (inr (), w')
            ∧ extends w w' new ∧ txn <$> new = txs.
Proof.
  revert w. induction txs as [|tx rest IH]; intros w Hall.
  - exists w, []. split_and!; [done|apply extends_refl|done].
  - apply Forall_cons in Hall as [Htx Hrest].
    destruct (processTxn_passes batch tx w Htx) as (keyStrs & Hks & Hrun).
    destruct (IH (emitted batch tx keyStrs w) Hrest) as (w' & new & Hfor & Hext & Hmap).
    exists w', (filtered batch tx (collect JsSet.empty keyStrs)
                         (Date_now (ticks w)) :: new).
    split_and!.
    + by rewrite forTxns_cons, Hrun.
    + apply (extends_trans _ (emitted batch tx keyStrs w) _ [_] new); [|done].
      split; simpl; [done|lia].
    + by rewrite fmap_cons, Hmap.
Qed.

(** * The claims *)

Section Claims.
Context `{Collaborators}.

(** C3. A transaction whose expanded key list holds a skip-listed address is
    dropped: the iteration ends without a yield whatever the other keys
    are, and the scan stops at the first skip-listed key, so that the keys
    after it are never looked at. *)
Theorem skip_list_veto batch tx w keyStrs :
  expandedKeys tx = Some keyStrs →
  Exists skipListed keyStrs →
  ∃ pre k post w',
    keyStrs = pre ++ k :: post
    ∧ Forall (λ s, ¬ skipListed s) pre ∧ skipListed k
    ∧ processTxn batch tx w = (inr (), w')
    ∧ yielded w' = yielded w
    ∧ scanned w' = scanned w ++ pre ++ [k].
Proof.
  intros Hks Hskip.
  destruct (skip_split keyStrs) as [Hclean|(pre & k & post & -> & Hpre & Hk)].
  - apply Exists_exists in Hskip as (k & Hin & Hk).
    rewrite Forall_forall in Hclean. by destruct (Hclean k Hin).
  - exists pre, k, post, (afterScan (pre ++ [k]) (lookedUp tx w)).
    split_and!; [done..| |done|done].
    by apply processTxn_skip with post.
Qed.

(** C4. A transaction without a skip-listed key is dropped when none of its
    keys is of interest; otherwise exactly one record is yielded for it, and
    its matched accounts are, as a set, the keys of interest of the list:
    without duplicates and not empty. *)
Theorem interest_match batch tx w keyStrs :
  expandedKeys tx = Some keyStrs →
  Forall (λ s, ¬ skipListed s) keyStrs →
  ∃ w', processTxn batch tx w = (inr (), w')
    ∧ (Forall (λ s, ¬ ofInterest s) keyStrs → yielded w' = yielded w)
    ∧ (Exists ofInterest keyStrs →
       ∃ ft, yielded w' = yielded w ++ [ft]
         ∧ txn ft = tx
         ∧ NoDup (accountsOfInterest ft)
         ∧ accountsOfInterest ft ≠ []
         ∧ list_to_set (accountsOfInterest ft)
           =@{gset string} list_to_set (filter ofInterest keyStrs)).
Proof.
  intros Hks Hclean. rewrite (processTxn_clean _ _ _ _ Hks Hclean).
  destruct (decide _) as [Hnil|Hnil].
  - eexists. split; [done|]. split; [done|].
    intros (k & Hk & Hint)%Exists_exists.
    apply collect_nil_iff in Hnil. rewrite Forall_forall in Hnil.
    by destruct (Hnil k Hk).
  - eexists. split; [done|]. split.
    + intros Hno. by apply collect_nil_iff in Hno.
    + intros _. eexists. split_and!; [reflexivity|reflexivity|..];
        rewrite accountsOfInterest_filtered; [|done|].
      * apply NoDup_collect, NoDup_nil_2.
      * apply set_eq. intros s.
        rewrite !elem_of_list_to_set, elem_of_collect, list_elem_of_filter.
        unfold JsSet.empty. rewrite elem_of_nil. tauto.
Qed.

(** C10. In every record the filter yields, the accounts of interest are
    pairwise different, each one is of interest, and they stand in the order
    in which they first occur in the expanded key list. *)
Theorem matched_accounts_first_seen updates w :
  ∃ new, extends w (preSimulationFilter updates w).2 new
    ∧ ∀ ft, ft ∈ new →
        ∃ keyStrs, expandedKeys (txn ft) = Some keyStrs
          ∧ NoDup (accountsOfInterest ft)
          ∧ Forall ofInterest (accountsOfInterest ft)
          ∧ ∀ i j a b,
              accountsOfInterest ft !! i = Some a →
              accountsOfInterest ft !! j = Some b →
              i < j →
              ∃ ia ib, firstIndex a keyStrs = Some ia
                       ∧ firstIndex b keyStrs = Some ib ∧ ia < ib.
Proof.
  destruct (preSimulationFilter_extends updates w) as (new & Hext & _ & Hbuilt).
  exists new. split; [done|].
  intros ft (i & Hi)%list_elem_of_lookup_1.
  destruct (Hbuilt i ft Hi) as (update & _ & _ & keyStrs & Hks & _ & _ & Hft).
  exists keyStrs. split; [done|].
  rewrite Hft, accountsOfInterest_filtered. split_and!.
  - apply NoDup_collect, NoDup_nil_2.
  - apply Forall_forall. intros s [Hs|[_ Hs]]%elem_of_collect; [|done].
    by apply elem_of_nil in Hs.
  - apply collect_first_seen.
Qed.

(** C7. The records come out in the order in which the batches arrive and,
    within a batch, in the order of its transactions: the transactions of
    the records yielded are an order-preserving selection from the
    transactions of the batches laid end to end. For a single batch whose
    transactions all pass, they are exactly the transactions of the batch,
    in the same order. *)
Theorem emission_order updates w :
  (∃ new, extends w (preSimulationFilter updates w).2 new
          ∧ txn <$> new `sublist_of` (updates ≫= txns))
  ∧ (∀ update, Forall passes (txns update) →
       ∃ w' new, preSimulationFilter [update] w = (inr (), w')
                 ∧ extends w w' new ∧ txn <$> new = txns update).
Proof.
  split.
  - destruct (preSimulationFilter_extends updates w) as (new & Hext & Hsub & _).
    by exists new.
  - intros update Hall.
    destruct (forTxns_all_pass (updateTimings update) (txns update) w Hall)
      as (w' & new & Hrun & Hext & Hmap).
    exists w', new. split_and!; [|done|done].
    rewrite preSimulationFilter_cons, Hrun. reflexivity.
Qed.

End Claims.

(** ** Calls to the lookup-table provider *)

Section ResolverCalls.
Context `{Collaborators}.

Lemma calledKeys_all lookups :
  Forall resolves lookups → calledKeys lookups = accountKey <$> lookups.
Proof.
  induction 1 as [|lookup rest [lut Hlut] _ IH]; [done|].
  simpl. by rewrite Hlut, IH.
Qed.

Lemma calledKeys_stop pre lookup post :
  Forall resolves pre →
  getLookupTable (accountKey lookup) = None →
  calledKeys (pre ++ lookup :: post) = accountKey <$> (pre ++ [lookup]).
Proof.
  intros Hpre Hnone. induction Hpre as [|l rest [lut Hlut] _ IH]; simpl.
  - by rewrite Hnone.
  - by rewrite Hlut, IH.
Qed.

Lemma resolvedTables_stop pre lookup post :
  Forall resolves pre →
  getLookupTable (accountKey lookup) = None →
  resolvedTables (pre ++ lookup :: post) = resolvedTables pre
  ∧ length (resolvedTables pre) = length pre.
Proof.
  intros Hpre Hnone. induction Hpre as [|l rest [lut Hlut] _ [IH1 IH2]]; simpl.
  - by rewrite Hnone.
  - rewrite Hlut, IH1. simpl. by rewrite IH2.
Qed.

(** The tables handed to [getAccountKeys] are those the loop collected
    before it left, whether or not it went through all the lookups. *)
Lemma processTxn_after_lookups batch tx w :
  processTxn batch tx w
  = expandAndFilter batch tx
      (resolvedTables (addressTableLookups (message tx))) (lookedUp tx w).
Proof. unfold processTxn. gen_unfold. by rewrite resolveLookups_run. Qed.

Lemma resolverCalls_processTxn batch tx w :
  resolverCalls (processTxn batch tx w).2
  = resolverCalls w ++ calledKeys (addressTableLookups (message tx)).
Proof. by destruct (processTxn_run batch tx w). Qed.

(** C8, as the code has it. While a transaction is processed the provider
    is asked for the tables in the order of the transaction's lookups, once
    for each lookup, and the asking stops after the first table the provider
    does not know: when every table is known the calls are the lookups'
    addresses one for one; otherwise they are the addresses up to and
    including the first unknown one. *)
Theorem resolver_calls_in_order batch tx w :
  ∃ calls,
    resolverCalls (processTxn batch tx w).2 = resolverCalls w ++ calls
    ∧ (Forall resolves (addressTableLookups (message tx)) →
       calls = accountKey <$> addressTableLookups (message tx))
    ∧ (∀ pre lookup post,
         addressTableLookups (message tx) = pre ++ lookup :: post →
         Forall resolves pre →
         getLookupTable (accountKey lookup) = None →
         calls = accountKey <$> (pre ++ [lookup])).
Proof.
  exists (calledKeys (addressTableLookups (message tx))). split_and!.
  - apply resolverCalls_processTxn.
  - apply calledKeys_all.
  - intros pre lookup post -> Hpre Hnone. by apply calledKeys_stop.
Qed.

(** From the world the lookup loop leaves, the iteration does what
    [FilterRun] says of the answer [getAccountKeys] gives on the tables
    handed to it. *)
Lemma expandAndFilter_run batch tx luts w :
  FilterRun batch tx w (getAccountKeys (message tx) luts)
            (expandAndFilter batch tx luts w).
Proof.
  unfold expandAndFilter, tryGetAccountKeys. gen_unfold.
  destruct (getAccountKeys (message tx) luts) as [e|ak]; simpl.
  - gen_unfold. simpl. constructor.
  - gen_unfold. simpl.
    destruct (skip_split (toBase58 <$> concat (keySegments ak)))
      as [Hclean|(pre & k & post & Heq & Hpre & Hk)].
    + rewrite (scanKeys_clean _ _ _ Hclean). simpl.
      set (keyStrs := toBase58 <$> concat (keySegments ak)) in *.
      match goal with
      | |- FilterRun _ _ _ _ ?outcome =>
          assert (outcome
                  = if decide (collect JsSet.empty keyStrs = [])
                    then (inr (), afterScan keyStrs w)
                    else (inr (),
                          afterYield
                            [filtered batch tx (collect JsSet.empty keyStrs)
                                      (Date_now (ticks w))]
                            (afterClock
                               (afterLog
                                  [found (length (collect JsSet.empty keyStrs))]
                                  (afterScan keyStrs w))))) as ->
      end.
      { destruct (collect JsSet.empty keyStrs) as [|m ms]; reflexivity. }
      destruct (decide _) as [Hnil|Hnil].
      * apply filter_no_match; [done|]. by apply collect_nil_iff.
      * apply filter_yields; [done|].
        destruct (decide (Exists ofInterest keyStrs)) as [Hex|Hnex]; [done|].
        apply not_Exists_Forall in Hnex; [|apply _].
        by apply collect_nil_iff in Hnex.
    + rewrite (scanKeys_skip _ _ _ _ _ _ Heq Hpre Hk). simpl.
      by eapply filter_vetoed.
Qed.

Lemma processTxn_filter_run batch tx w :
  FilterRun batch tx (lookedUp tx w)
    (getAccountKeys (message tx)
       (resolvedTables (addressTableLookups (message tx))))
    (processTxn batch tx w).
Proof. rewrite processTxn_after_lookups. apply expandAndFilter_run. Qed.

Lemma Web3_no_lookups message :
  addressTableLookups message = [] →
  ∃ accountKeys,
    Web3.getAccountKeys message [] = inr accountKeys
    ∧ concat (keySegments accountKeys) = staticAccountKeys message.
Proof.
  destruct message as [keys|keys lookups]; simpl.
  - intros _. eexists. split; [reflexivity|]. simpl. apply app_nil_r.
  - intros ->. eexists. split; [reflexivity|]. simpl. apply app_nil_r.
Qed.

(** C9. For a transaction without lookups the lookup loop returns at once
    with no table and an untouched world, and the provider is not asked
    anything while the transaction is processed. [getAccountKeys] is
    called with the empty table list, and what the iteration does is
    decided by its answer: when it throws, the warning with that error is
    logged and the scan then fails on [null]; when it returns a key list,
    that list is scanned. The library answers a message without lookups
    with its static keys alone, so that with the library the key list
    scanned is the list of the static keys. *)
Theorem no_lookups_no_resolver batch tx w :
  addressTableLookups (message tx) = [] →
  resolveLookups (addressTableLookups (message tx)) [] w = (inr [], w)
  ∧ resolverCalls (processTxn batch tx w).2 = resolverCalls w
  ∧ FilterRun batch tx w (getAccountKeys (message tx) [])
              (processTxn batch tx w)
  ∧ (∃ accountKeys,
       Web3.getAccountKeys (message tx) [] = inr accountKeys
       ∧ concat (keySegments accountKeys) = staticAccountKeys (message tx))
  ∧ (getAccountKeys (message tx) [] = Web3.getAccountKeys (message tx) [] →
     expandedKeys tx = Some (toBase58 <$> staticAccountKeys (message tx))).
Proof.
  intros Hnone. split_and!.
  - by rewrite Hnone.
  - rewrite resolverCalls_processTxn, Hnone. simpl. apply app_nil_r.
  - pose proof (processTxn_filter_run batch tx w) as Hrun.
    unfold lookedUp in Hrun. rewrite Hnone in Hrun. simpl in Hrun.
    by rewrite afterCalls_nil in Hrun.
  - by apply Web3_no_lookups.
  - intros Hlib. unfold expandedKeys. rewrite Hnone. simpl. rewrite Hlib.
    destruct (Web3_no_lookups (message tx) Hnone) as (ak & -> & Hkeys).
    by rewrite Hkeys.
Qed.

End ResolverCalls.

(** ** The bounded relay *)

Section RelayFacts.
Context {A : Type}.
Implicit Types (st : Relay.State A) (b : A) (bs : list A).

Lemma arrive_bounded N b st :
  0 < N →
  length (Relay.buffer st) ≤ N →
  length (Relay.buffer (Relay.arrive N b st)) ≤ N.
Proof.
  intros HN Hst. unfold Relay.arrive.
  destruct (decide (N ≤ length (Relay.buffer st))) as [Hfull|Hroom]; simpl.
  - rewrite length_app, length_drop. simpl. lia.
  - rewrite length_app. simpl. lia.
Qed.

Lemma consume_bounded st :
  length (Relay.buffer (Relay.consume st).2) ≤ length (Relay.buffer st).
Proof.
  unfold Relay.consume. destruct (Relay.buffer st) as [|b rest] eqn:Hbuf; simpl.
  - by rewrite Hbuf.
  - lia.
Qed.

Lemma run_bounded N history st :
  0 < N →
  length (Relay.buffer st) ≤ N →
  length (Relay.buffer (Relay.run N history st)) ≤ N.
Proof.
  intros HN. revert st. unfold Relay.run.
  induction history as [|ev history IH]; intros st Hst; [done|].
  simpl. apply IH. destruct ev as [b|]; simpl.
  - by apply arrive_bounded.
  - etrans; [apply consume_bounded|done].
Qed.

Lemma arrive_full N b st oldest rest :
  Relay.buffer st = oldest :: rest →
  length (Relay.buffer st) = N →
  Relay.arrive N b st
  = {| Relay.buffer := rest ++ [b];
       Relay.evicted := Relay.evicted st ++ [oldest] |}.
Proof.
  intros Hbuf Hlen. unfold Relay.arrive.
  rewrite decide_True by lia. by rewrite Hbuf.
Qed.

(** After a burst of arrivals the buffer holds the newest batches and the
    older ones have been evicted, oldest first. *)
Lemma burst N bs :
  0 < N →
  Relay.run N (Relay.Arrive <$> bs) Relay.initial
  = {| Relay.buffer := drop (length bs - N) bs;
       Relay.evicted := take (length bs - N) bs |}.
Proof.
  intros HN. induction bs as [|b bs IH] using rev_ind; [done|].
  unfold Relay.run in *. rewrite fmap_app, foldl_app, IH. simpl.
  unfold Relay.arrive. simpl. rewrite length_drop, length_app. simpl.
  destruct (decide (N ≤ length bs - (length bs - N))) as [Hfull|Hroom].
  - f_equal.
    + rewrite drop_drop, drop_app_le by lia. do 2 f_equal. lia.
    + rewrite take_take_drop, take_app_le by lia. f_equal. lia.
  - replace (length bs - N) with 0 by lia.
    replace (length bs + 1 - N) with 0 by lia. done.
Qed.

Lemma takeN_take n st : Relay.takeN n st = take n (Relay.buffer st).
Proof.
  revert st. induction n as [|n IH]; intros st; [done|].
  simpl. unfold Relay.consume. destruct (Relay.buffer st) as [|b rest] eqn:Hbuf.
  - done.
  - simpl. by rewrite IH.
Qed.

(** C5. A relay of positive capacity [N] never holds more than [N] batches,
    whatever the history of arrivals and takes; a batch that arrives while
    [N] are buffered evicts the oldest of them and joins the others at the
    end; after [N + k] arrivals without a take the [k] oldest batches are
    the evicted ones and the [N] newest are buffered and are handed to the
    consumer in their order of arrival. *)
Theorem relay_keeps_newest (N : nat) :
  0 < N →
  (∀ history : list (Relay.Event A),
     length (Relay.buffer (Relay.dropBeyondHighWaterMark N history)) ≤ N)
  ∧ (∀ st b oldest rest,
       Relay.buffer st = oldest :: rest →
       length (Relay.buffer st) = N →
       Relay.arrive N b st
       = {| Relay.buffer := rest ++ [b];
            Relay.evicted := Relay.evicted st ++ [oldest] |})
  ∧ (∀ bs k,
       length bs = N + k →
       let st := Relay.dropBeyondHighWaterMark N (Relay.Arrive <$> bs) in
       Relay.evicted st = take k bs
       ∧ Relay.buffer st = drop k bs
       ∧ Relay.takeN N st = drop k bs).
Proof.
  intros HN. split_and!.
  - intros history. apply run_bounded; [done|simpl; lia].
  - intros st b oldest rest. apply arrive_full.
  - intros bs k Hlen. unfold Relay.dropBeyondHighWaterMark. simpl.
    rewrite (burst N bs HN).
    replace (length bs - N) with k by lia. split_and!; [done..|].
    rewrite takeN_take. simpl. apply take_ge. rewrite length_drop. lia.
Qed.

End RelayFacts.

(** * The claims on the small market *)

Section OnTheMarket.
Import Market.
#[local] Existing Instance collaborators.

(** Closed decidable facts are settled by evaluation. *)
Ltac by_evaluation := apply (bool_decide_unpack _); vm_compute; exact I.

Lemma txPlain_passes : passes txPlain.
Proof. exists ["Payer1"; "VaultA"]. split_and!; [reflexivity|by_evaluation..]. Qed.

Lemma txViaTable_passes : passes txViaTable.
Proof.
  exists ["Payer2"; "VaultA"; "VaultA"; "VaultB"; "VaultC"].
  split_and!; [reflexivity|by_evaluation..].
Qed.

(** C1, where the code departs from it. The second transaction of the batch
    refers to a table the provider does not know. The lookup loop is left,
    [getAccountKeys] is still called, with the tables collected so far, and
    throws; the warning is logged, and the scan then runs on the [null] key
    list: the [TypeError] leaves the generator. The first transaction has
    been yielded; the third, which passes when it comes alone, never is. *)
Theorem unknown_table_ends_the_generator :
  let outcome := run [batchOf 900 [txPlain; txUnknownTable; txViaTable]] in
  getLookupTable (pk "TableZ") = None
  ∧ resolvedTables (addressTableLookups (message txUnknownTable)) = []
  ∧ outcome.1 = inl nullKeySegments
  ∧ txn <$> yielded outcome.2 = [txPlain]
  ∧ logged outcome.2
    = [found 1;
       warning (Error "Failed to find address lookup table account for table key")]
  ∧ txn <$> yielded (run [batchOf 900 [txViaTable]]).2 = [txViaTable].
Proof. vm_compute. by split_and!. Qed.

(** C2, where the code departs from it. The second transaction of the batch
    has all its tables resolved and an index outside its table, so that
    [getAccountKeys] throws. The warning is logged, but the iteration goes
    on to the scan with the [null] key list: the [TypeError] leaves the
    generator, which yields nothing after the first transaction although
    the third passes. *)
Theorem malformed_transaction_ends_the_generator :
  let outcome := run [batchOf 900 [txPlain; txBadIndex; txViaTable]] in
  Forall resolves (addressTableLookups (message txBadIndex))
  ∧ expandedKeys txBadIndex = None
  ∧ outcome.1 = inl nullKeySegments
  ∧ txn <$> yielded outcome.2 = [txPlain]
  ∧ logged outcome.2
    = [found 1;
       warning (Error "Failed to find address for index in address lookup table")]
  ∧ passes txViaTable.
Proof.
  split_and!; [|vm_compute; reflexivity..|apply txViaTable_passes].
  repeat constructor. by eexists.
Qed.

(** C6 does not hold as stated: a batch stamped 2000 whose transaction is
    yielded while the clock reads 1000 gives a record whose [preSimEnd] is
    before its [mempoolEnd]. *)
Lemma preSimEnd_before_mempoolEnd :
  ∃ ft, yielded (run [batchOf 2000 [txPlain]]).2 = [ft]
        ∧ ¬ (preSimEnd (timings ft) >= mempoolEnd (timings ft))%Z.
Proof.
  eexists. split; [vm_compute; reflexivity|].
  vm_compute. intros Hge. by apply Hge.
Qed.

(** C8 does not hold as stated: the transaction refers to [TableZ] and to
    [TableA], in this order; the provider does not know [TableZ], and it is
    never asked for [TableA]. *)
Lemma lookup_after_unknown_table_not_resolved :
  let calls :=
    resolverCalls (processTxn (stamp 900) txUnknownThenKnown initialWorld).2 in
  accountKey <$> addressTableLookups (message txUnknownThenKnown)
  = [pk "TableZ"; pk "TableA"]
  ∧ calls = [pk "TableZ"]
  ∧ ¬ (∀ k, k ∈ accountKey <$> addressTableLookups (message txUnknownThenKnown) →
            k ∈ calls).
Proof.
  split_and!; [reflexivity..|].
  intros Hall. specialize (Hall (pk "TableA")).
  assert (pk "TableA" ∈ [pk "TableZ"]) as Hin.
  { apply Hall. right. left. }
  apply list_elem_of_singleton in Hin. discriminate Hin.
Qed.

(** The veto on a transaction that touches two vaults and the market
    maker of the skip list. *)
Lemma skip_list_veto_witness :
  expandedKeys txOrca = Some ["VaultA"; orcaMM; "VaultB"]
  ∧ Exists skipListed ["VaultA"; orcaMM; "VaultB"]
  ∧ ∃ pre k post w',
      ["VaultA"; orcaMM; "VaultB"] = pre ++ k :: post
      ∧ Forall (λ s, ¬ skipListed s) pre ∧ skipListed k
      ∧ processTxn (stamp 900) txOrca initialWorld = (inr (), w')
      ∧ yielded w' = yielded initialWorld
      ∧ scanned w' = scanned initialWorld ++ pre ++ [k].
Proof.
  assert (expandedKeys txOrca = Some ["VaultA"; orcaMM; "VaultB"]) as Hks
    by reflexivity.
  assert (Exists skipListed ["VaultA"; orcaMM; "VaultB"]) as Hskip
    by by_evaluation.
  split; [exact Hks|]. split; [exact Hskip|].
  exact (skip_list_veto (stamp 900) txOrca initialWorld _ Hks Hskip).
Defined.

(** The match on a transaction that reaches two vaults through a table and
    names a third one twice. *)
Lemma interest_match_witness :
  expandedKeys txViaTable
  = Some ["Payer2"; "VaultA"; "VaultA"; "VaultB"; "VaultC"]
  ∧ Forall (λ s, ¬ skipListed s)
           ["Payer2"; "VaultA"; "VaultA"; "VaultB"; "VaultC"]
  ∧ ∃ w', processTxn (stamp 900) txViaTable initialWorld = (inr (), w')
      ∧ (Forall (λ s, ¬ ofInterest s)
                ["Payer2"; "VaultA"; "VaultA"; "VaultB"; "VaultC"] →
         yielded w' = yielded initialWorld)
      ∧ (Exists ofInterest ["Payer2"; "VaultA"; "VaultA"; "VaultB"; "VaultC"] →
         ∃ ft, yielded w' = yielded initialWorld ++ [ft]
           ∧ txn ft = txViaTable
           ∧ NoDup (accountsOfInterest ft)
           ∧ accountsOfInterest ft ≠ []
           ∧ list_to_set (accountsOfInterest ft)
             =@{gset string}
             list_to_set (filter ofInterest
                            ["Payer2"; "VaultA"; "VaultA"; "VaultB"; "VaultC"])).
Proof.
  assert (expandedKeys txViaTable
          = Some ["Payer2"; "VaultA"; "VaultA"; "VaultB"; "VaultC"]) as Hks
    by reflexivity.
  assert (Forall (λ s, ¬ skipListed s)
                 ["Payer2"; "VaultA"; "VaultA"; "VaultB"; "VaultC"]) as Hclean
    by by_evaluation.
  split; [exact Hks|]. split; [exact Hclean|].
  exact (interest_match (stamp 900) txViaTable initialWorld _ Hks Hclean).
Defined.

(** The order of a batch of two transactions that pass. *)
Lemma emission_order_witness :
  Forall passes [txPlain; txViaTable]
  ∧ ∃ w' new,
      preSimulationFilter [batchOf 900 [txPlain; txViaTable]] initialWorld
      = (inr (), w')
      ∧ extends initialWorld w' new
      ∧ txn <$> new = [txPlain; txViaTable].
Proof.
  assert (Forall passes [txPlain; txViaTable]) as Hall.
  { repeat constructor; [apply txPlain_passes|apply txViaTable_passes]. }
  split; [exact Hall|].
  exact (proj2 (emission_order [] initialWorld)
               (batchOf 900 [txPlain; txViaTable]) Hall).
Defined.

(** The accounts matched for a transaction that names [VaultA] twice and
    reaches [VaultB] and [VaultC] through a table. *)
Lemma matched_accounts_first_seen_witness :
  ∃ ft keyStrs,
    yielded (run [batchOf 900 [txViaTable]]).2 = [ft]
    ∧ accountsOfInterest ft = ["VaultA"; "VaultB"; "VaultC"]
    ∧ expandedKeys (txn ft) = Some keyStrs
    ∧ NoDup (accountsOfInterest ft)
    ∧ Forall ofInterest (accountsOfInterest ft)
    ∧ ∃ ia ib, firstIndex "VaultA" keyStrs = Some ia
               ∧ firstIndex "VaultC" keyStrs = Some ib ∧ ia < ib.
Proof.
  destruct (matched_accounts_first_seen [batchOf 900 [txViaTable]] initialWorld)
    as (new & [Hy _] & Hall).
  vm_compute in Hy. subst new.
  match type of Hall with
  | ∀ ft, ft ∈ [?ft0] → _ =>
      destruct (Hall ft0 (list_elem_of_here _ _))
        as (keyStrs & Hks & Hnd & Hint & Hord);
      exists ft0, keyStrs
  end.
  split; [reflexivity|]. split; [reflexivity|]. split; [exact Hks|].
  split; [exact Hnd|]. split; [exact Hint|].
  exact (Hord 0 2 "VaultA" "VaultC" eq_refl eq_refl (le_S _ _ (le_n _))).
Defined.

(** The calls for a transaction whose first table is unknown. *)
Lemma resolver_calls_in_order_witness :
  ∃ calls,
    resolverCalls (processTxn (stamp 900) txUnknownThenKnown initialWorld).2
    = resolverCalls initialWorld ++ calls
    ∧ calls = [pk "TableZ"].
Proof.
  destruct (resolver_calls_in_order (stamp 900) txUnknownThenKnown initialWorld)
    as (calls & Hcalls & _ & Hstop).
  exists calls. split; [exact Hcalls|].
  exact (Hstop [] (lookupOf "TableZ" [0] []) [lookupOf "TableA" [0] []]
               eq_refl (Forall_nil_2 _) eq_refl).
Defined.

(** A legacy transaction. *)
Lemma no_lookups_no_resolver_witness :
  addressTableLookups (message txLegacy) = []
  ∧ resolveLookups (addressTableLookups (message txLegacy)) [] initialWorld
    = (inr [], initialWorld)
  ∧ resolverCalls (processTxn (stamp 900) txLegacy initialWorld).2 = []
  ∧ FilterRun (stamp 900) txLegacy initialWorld
              (getAccountKeys (message txLegacy) [])
              (processTxn (stamp 900) txLegacy initialWorld)
  ∧ expandedKeys txLegacy = Some ["Payer1"; "VaultA"].
Proof.
  split; [reflexivity|].
  destruct (no_lookups_no_resolver (stamp 900) txLegacy initialWorld eq_refl)
    as (Hloop & Hcalls & Hrun & _ & Hlib).
  split; [exact Hloop|]. split; [exact Hcalls|]. split; [exact Hrun|].
  exact (Hlib eq_refl).
Defined.

(** The relay of the filter, of capacity [HIGH_WATER_MARK], after 253
    arrivals: the batches are numbered from 0 in their order of arrival. *)
Lemma relay_keeps_newest_witness :
  0 < HIGH_WATER_MARK
  ∧ let st := Relay.dropBeyondHighWaterMark HIGH_WATER_MARK
                (Relay.Arrive <$> seq 0 253) in
    Relay.evicted st = [0; 1; 2]
    ∧ Relay.buffer st = seq 3 250
    ∧ Relay.takeN HIGH_WATER_MARK st = seq 3 250.
Proof.
  assert (0 < HIGH_WATER_MARK) as Hpos by (unfold HIGH_WATER_MARK; lia).
  split; [exact Hpos|].
  exact (proj2 (proj2 (relay_keeps_newest HIGH_WATER_MARK Hpos))
               (seq 0 253) 3 eq_refl).
Defined.

End OnTheMarket.

(** * Whole runs of the generator *)

Lemma advanced_trans w1 w2 w3 new1 new2 calls1 calls2 tail :
  advanced w1 w2 new1 calls1 [] →
  advanced w2 w3 new2 calls2 tail →
  advanced w1 w3 (new1 ++ new2) (calls1 ++ calls2) tail.
Proof.
  intros (Hext1 & Hlog1 & Hcalls1) (Hext2 & Hlog2 & Hcalls2). split_and!.
  - by eapply extends_trans.
  - rewrite Hlog2, Hlog1, fmap_app, app_nil_r, <- !app_assoc. done.
  - by rewrite Hcalls2, Hcalls1, <- app_assoc.
Qed.

Section Runs.
Context `{Collaborators}.

Lemma processed_all txs : Forall hasKeys txs → processed txs = txs.
Proof.
  induction 1 as [|tx rest Htx _ IH]; [done|].
  simpl. by rewrite decide_True, IH.
Qed.

Lemma attempted_all txs : Forall hasKeys txs → attempted txs = txs.
Proof.
  induction 1 as [|tx rest Htx _ IH]; [done|].
  simpl. by rewrite decide_True, IH.
Qed.

Lemma processed_app_all txs more :
  Forall hasKeys txs → processed (txs ++ more) = txs ++ processed more.
Proof.
  induction 1 as [|tx rest Htx _ IH]; [done|].
  simpl. by rewrite decide_True, IH.
Qed.

Lemma attempted_app_all txs more :
  Forall hasKeys txs → attempted (txs ++ more) = txs ++ attempted more.
Proof.
  induction 1 as [|tx rest Htx _ IH]; [done|].
  simpl. by rewrite decide_True, IH.
Qed.

Lemma processed_app_stop txs more :
  ¬ Forall hasKeys txs → processed (txs ++ more) = processed txs.
Proof.
  induction txs as [|tx rest IH]; intros Hnot.
  - destruct Hnot. constructor.
  - simpl. destruct (decide (hasKeys tx)) as [Htx|Htx]; [|done].
    rewrite IH; [done|]. intros Hrest. apply Hnot. by constructor.
Qed.

Lemma attempted_app_stop txs more :
  ¬ Forall hasKeys txs → attempted (txs ++ more) = attempted txs.
Proof.
  induction txs as [|tx rest IH]; intros Hnot.
  - destruct Hnot. constructor.
  - simpl. destruct (decide (hasKeys tx)) as [Htx|Htx]; [|done].
    rewrite IH; [done|]. intros Hrest. apply Hnot. by constructor.
Qed.

Lemma noKeys_not_hasKeys tx : expandedKeys tx = None → ¬ hasKeys tx.
Proof. unfold hasKeys. intros ->. by apply is_Some_None. Qed.

(** What one iteration adds to the world, in each of its four endings. *)
Lemma processTxn_summary batch tx w :
  ∃ new tail,
    advanced w (processTxn batch tx w).2 new (lookupCalls tx) tail
    ∧ txn <$> new = filter passes (processed [tx])
    ∧ ((processTxn batch tx w).1 = inr () ∧ tail = [] ∧ hasKeys tx
       ∨ (processTxn batch tx w).1 = inl nullKeySegments
         ∧ (∃ e, tail = [warning e]) ∧ ¬ hasKeys tx).
Proof.
  destruct (processTxn_run batch tx w) as [e He|pre k post Hks Hpre Hk
    |keyStrs Hks Hclean Hno|keyStrs Hks Hclean Hsome]; simpl.
  - assert (¬ hasKeys tx) as Hnone.
    { apply noKeys_not_hasKeys. unfold expandedKeys. by rewrite He. }
    exists [], [warning e]. split_and!.
    + split_and!; [quiet|done|done].
    + by rewrite decide_False.
    + right. eauto.
  - assert (hasKeys tx) as Hhas by (unfold hasKeys; by rewrite Hks).
    exists [], []. split_and!.
    + split_and!; [quiet|simpl; by rewrite app_nil_r|done].
    + rewrite decide_True by done. rewrite filter_cons, decide_False; [done|].
      intros (ks & Heq & Hall & _). rewrite Hks in Heq. injection Heq as <-.
      rewrite Forall_app, Forall_cons in Hall. tauto.
    + by left.
  - assert (hasKeys tx) as Hhas by (unfold hasKeys; by rewrite Hks).
    exists [], []. split_and!.
    + split_and!; [quiet|simpl; by rewrite app_nil_r|done].
    + rewrite decide_True by done. rewrite filter_cons, decide_False; [done|].
      intros (ks & Heq & _ & (k & Hk & Hint)%Exists_exists).
      rewrite Hks in Heq. injection Heq as <-.
      rewrite Forall_forall in Hno. by destruct (Hno k Hk).
    + by left.
  - assert (hasKeys tx) as Hhas by (unfold hasKeys; by rewrite Hks).
    exists [filtered batch tx (collect JsSet.empty keyStrs) (Date_now (ticks w))], [].
    split_and!.
    + split_and!; [split; simpl; [done|lia]|done|done].
    + rewrite decide_True by done. rewrite filter_cons, decide_True; [done|].
      by exists keyStrs.
    + by left.
Qed.

Lemma processed_cons tx rest :
  processed (tx :: rest) = if decide (hasKeys tx) then tx :: processed rest else [].
Proof. reflexivity. Qed.

Lemma attempted_cons tx rest :
  attempted (tx :: rest)
  = tx :: if decide (hasKeys tx) then attempted rest else [].
Proof. reflexivity. Qed.

(** The same for the transactions of one batch. *)
Lemma forTxns_summary batch txs w :
  ∃ new tail,
    advanced w (forTxns batch txs w).2 new (attempted txs ≫= lookupCalls) tail
    ∧ txn <$> new = filter passes (processed txs)
    ∧ ((forTxns batch txs w).1 = inr () ∧ tail = [] ∧ Forall hasKeys txs
       ∨ (forTxns batch txs w).1 = inl nullKeySegments
         ∧ (∃ e, tail = [warning e]) ∧ ¬ Forall hasKeys txs).
Proof.
  revert w. induction txs as [|tx rest IH]; intros w.
  - exists [], []. split_and!; [split_and!; [quiet|simpl; by rewrite app_nil_r|
      simpl; by rewrite app_nil_r]|done|left; by split_and!].
  - rewrite forTxns_cons, processed_cons, attempted_cons.
    destruct (processTxn_summary batch tx w)
      as (new1 & tail1 & Hadv1 & Hout1 & Hend1).
    rewrite processed_cons in Hout1.
    destruct (processTxn batch tx w) as [[e|[]] w1];
      cbn [fst snd] in Hadv1, Hend1 |- *.
    + destruct Hend1 as [(Habs & _)|(He & Htail & Hnone)]; [done|].
      rewrite decide_False in Hout1 by done. rewrite !decide_False by done.
      exists new1, tail1. split_and!.
      * by rewrite bind_singleton.
      * done.
      * right. split_and!; [done|done|].
        intros Hall. apply Forall_cons in Hall as [? _]. done.
    + destruct Hend1 as [(_ & -> & Hhas)|(Habs & _)]; [|done].
      rewrite decide_True in Hout1 by done. rewrite !decide_True by done.
      destruct (IH w1) as (new2 & tail2 & Hadv2 & Hout2 & Hend2).
      exists (new1 ++ new2), tail2. split_and!.
      * rewrite bind_cons. by eapply advanced_trans.
      * rewrite fmap_app, Hout1, Hout2.
        change (tx :: processed rest) with ([tx] ++ processed rest).
        by rewrite filter_app.
      * destruct Hend2 as [(Hr & Ht & Hall)|(Hr & Ht & Hnot)].
        -- left. split_and!; [done|done|by constructor].
        -- right. split_and!; [done|done|].
           intros Hall. apply Forall_cons in Hall as [_ ?]. done.
Qed.

(** The same for a run over the batches, laid end to end. *)
Lemma preSimulationFilter_summary updates w :
  ∃ new tail,
    advanced w (preSimulationFilter updates w).2 new
             (attempted (updates ≫= txns) ≫= lookupCalls) tail
    ∧ txn <$> new = filter passes (processed (updates ≫= txns))
    ∧ ((preSimulationFilter updates w).1 = inr () ∧ tail = []
       ∧ Forall hasKeys (updates ≫= txns)
       ∨ (preSimulationFilter updates w).1 = inl nullKeySegments
         ∧ (∃ e, tail = [warning e]) ∧ ¬ Forall hasKeys (updates ≫= txns)).
Proof.
  revert w. induction updates as [|update rest IH]; intros w.
  - exists [], []. split_and!; [split_and!; [quiet|simpl; by rewrite app_nil_r|
      simpl; by rewrite app_nil_r]|done|left; by split_and!].
  - rewrite preSimulationFilter_cons, bind_cons.
    destruct (forTxns_summary (updateTimings update) (txns update) w)
      as (new1 & tail1 & Hadv1 & Hout1 & Hend1).
    destruct (forTxns _ _ w) as [[e|[]] w1];
      cbn [fst snd] in Hadv1, Hend1 |- *.
    + destruct Hend1 as [(Habs & _)|(He & Htail & Hnot)]; [done|].
      rewrite processed_app_stop, attempted_app_stop by done.
      exists new1, tail1. split_and!; [done|done|].
      right. split_and!; [done|done|].
      intros Hall. apply Forall_app in Hall as [? _]. done.
    + destruct Hend1 as [(_ & -> & Hall1)|(Habs & _)]; [|done].
      rewrite processed_app_all, attempted_app_all by done.
      rewrite (processed_all _ Hall1) in Hout1.
      rewrite (attempted_all _ Hall1) in Hadv1.
      destruct (IH w1) as (new2 & tail2 & Hadv2 & Hout2 & Hend2).
      exists (new1 ++ new2), tail2. split_and!.
      * rewrite bind_app. by eapply advanced_trans.
      * by rewrite fmap_app, Hout1, Hout2, filter_app.
      * destruct Hend2 as [(Hr & Ht & Hall)|(Hr & Ht & Hnot)].
        -- left. split_and!; [done|done|by apply Forall_app].
        -- right. split_and!; [done|done|].
           intros Hall. apply Forall_app in Hall as [_ ?]. done.
Qed.

End Runs.

(** ** What a run yields, logs and asks, and when it throws *)

Section RunProperties.
Context `{Collaborators}.

Lemma stopped_at pre tx post :
  Forall hasKeys pre →
  expandedKeys tx = None →
  processed (pre ++ tx :: post) = pre
  ∧ attempted (pre ++ tx :: post) = pre ++ [tx]
  ∧ ¬ Forall hasKeys (pre ++ tx :: post).
Proof.
  intros Hpre Hnone%noKeys_not_hasKeys. split_and!.
  - rewrite processed_app_all, processed_cons, decide_False by done.
    apply app_nil_r.
  - by rewrite attempted_app_all, attempted_cons, decide_False by done.
  - intros Hall. apply Forall_app in Hall as [_ Hall].
    apply Forall_cons in Hall as [? _]. done.
Qed.

(** X1. When [getAccountKeys] returns a key list for every transaction, the run
    returns, and the transactions of the records it yields are exactly the
    transactions that pass, in the order of the batches. *)
Theorem normal_run_yields_the_passing updates w :
  Forall hasKeys (updates ≫= txns) →
  ∃ w' new,
    preSimulationFilter updates w = (inr (), w')
    ∧ extends w w' new
    ∧ txn <$> new = filter passes (updates ≫= txns).
Proof.
  intros Hall.
  destruct (preSimulationFilter_summary updates w)
    as (new & tail & (Hext & _ & _) & Hout & [(Hr & _ & _)|(_ & _ & Hnot)]);
    [|done].
  rewrite (processed_all _ Hall) in Hout.
  exists (preSimulationFilter updates w).2, new. split_and!; [|done|done].
  rewrite <- Hr. apply surjective_pairing.
Qed.

(** X3. The first transaction without a key list ends the run: the records
    yielded are those of the passing transactions before it, and the
    provider is asked nothing for the transactions after it. *)
Theorem failure_cuts_the_run updates w pre tx post :
  updates ≫= txns = pre ++ tx :: post →
  Forall hasKeys pre →
  expandedKeys tx = None →
  ∃ w' new,
    preSimulationFilter updates w = (inl nullKeySegments, w')
    ∧ extends w w' new
    ∧ txn <$> new = filter passes pre
    ∧ resolverCalls w' = resolverCalls w ++ ((pre ++ [tx]) ≫= lookupCalls).
Proof.
  intros Hsplit Hpre Hnone.
  destruct (stopped_at pre tx post Hpre Hnone) as (Hproc & Hatt & Hnot).
  destruct (preSimulationFilter_summary updates w)
    as (new & tail & (Hext & _ & Hcalls) & Hout & Hend).
  rewrite Hsplit in Hout, Hcalls, Hend. rewrite Hproc in Hout.
  rewrite Hatt in Hcalls.
  destruct Hend as [(_ & _ & Hall)|(Hr & _ & _)]; [done|].
  exists (preSimulationFilter updates w).2, new. split_and!; [|done..].
  rewrite <- Hr. apply surjective_pairing.
Qed.

(** X4. The log of a run that returns is one debug line per record
    yielded, in order and with the number of its accounts of interest:
    nothing is written for a transaction that is dropped, and there is no
    warning. When the run is ended by the first transaction on which
    [getAccountKeys] throws, the same debug lines are followed by one
    warning, which is the last line. *)
Theorem log_of_a_run updates w :
  ((preSimulationFilter updates w).1 = inr () →
   ∃ new, extends w (preSimulationFilter updates w).2 new
          ∧ logged (preSimulationFilter updates w).2
            = logged w ++ (announce <$> new))
  ∧ (∀ pre tx post,
       updates ≫= txns = pre ++ tx :: post →
       Forall hasKeys pre →
       expandedKeys tx = None →
       ∃ new e, extends w (preSimulationFilter updates w).2 new
                ∧ logged (preSimulationFilter updates w).2
                  = logged w ++ (announce <$> new) ++ [warning e]).
Proof.
  destruct (preSimulationFilter_summary updates w)
    as (new & tail & (Hext & Hlog & _) & _ & Hend).
  split.
  - intros Hr. exists new. split; [done|].
    destruct Hend as [(_ & -> & _)|(Habs & _)]; [|congruence].
    by rewrite app_nil_r in Hlog.
  - intros pre tx post Hsplit Hpre Hnone.
    destruct (stopped_at pre tx post Hpre Hnone) as (_ & _ & Hnot).
    rewrite <- Hsplit in Hnot.
    destruct Hend as [(_ & _ & Hall)|(_ & [e ->] & _)]; [done|].
    by exists new, e.
Qed.

(** X5. In a run that returns, the provider is asked for the tables of every
    transaction, in the order of the batches, whether the transaction is
    yielded or dropped. *)
Theorem provider_asked_for_every_transaction updates w :
  Forall hasKeys (updates ≫= txns) →
  resolverCalls (preSimulationFilter updates w).2
  = resolverCalls w ++ ((updates ≫= txns) ≫= lookupCalls).
Proof.
  intros Hall.
  destruct (preSimulationFilter_summary updates w)
    as (new & tail & (_ & _ & Hcalls) & _ & _).
  by rewrite (attempted_all _ Hall) in Hcalls.
Qed.

Lemma forTxns_app batch txs more w :
  forTxns batch (txs ++ more) w
  = match forTxns batch txs w with
    | (inl e, w1) => (inl e, w1)
    | (inr _, w1) => forTxns batch more w1
    end.
Proof.
  revert w. induction txs as [|tx rest IH]; intros w; [done|].
  rewrite <- app_comm_cons, !forTxns_cons.
  destruct (processTxn batch tx w) as [[e|[]] w1]; [done|apply IH].
Qed.

(** X6. A run over two streams of batches laid end to end is the run over the
    first followed, from the world it leaves, by the run over the second;
    when the first throws the second is not started. *)
Theorem run_app updates more w :
  preSimulationFilter (updates ++ more) w
  = match preSimulationFilter updates w with
    | (inl e, w1) => (inl e, w1)
    | (inr _, w1) => preSimulationFilter more w1
    end.
Proof.
  revert w. induction updates as [|update rest IH]; intros w; [done|].
  rewrite <- app_comm_cons, !preSimulationFilter_cons.
  destruct (forTxns _ _ w) as [[e|[]] w1]; [done|apply IH].
Qed.

(** X7. Two batches that follow each other with the same timings are handled
    as the one batch of their transactions. *)
Theorem merge_batches u1 u2 rest w :
  updateTimings u1 = updateTimings u2 →
  preSimulationFilter (u1 :: u2 :: rest) w
  = preSimulationFilter
      ({| txns := txns u1 ++ txns u2; updateTimings := updateTimings u1 |}
         :: rest) w.
Proof.
  intros Hsame. rewrite !preSimulationFilter_cons. simpl.
  rewrite forTxns_app, Hsame.
  by destruct (forTxns (updateTimings u2) (txns u1) w) as [[e|[]] w1].
Qed.

Lemma collect_sublist keyStrs : collect JsSet.empty keyStrs `sublist_of` keyStrs.
Proof.
  induction keyStrs as [|k ks IH] using rev_ind; [done|].
  rewrite collect_snoc. destruct (isTokenAccountOfInterest k).
  - unfold JsSet.add. case_bool_decide.
    + by apply sublist_inserts_r.
    + by apply sublist_app.
  - by apply sublist_inserts_r.
Qed.

(** X8. In every record yielded, the accounts of interest are taken from the
    expanded key list of its transaction without changing their relative
    order: there is at least one, and no more than there are keys. *)
Theorem matched_accounts_within_keys updates w :
  ∃ new, extends w (preSimulationFilter updates w).2 new
    ∧ ∀ ft, ft ∈ new →
        ∃ keyStrs, expandedKeys (txn ft) = Some keyStrs
          ∧ accountsOfInterest ft `sublist_of` keyStrs
          ∧ 1 ≤ length (accountsOfInterest ft) ≤ length keyStrs.
Proof.
  destruct (preSimulationFilter_extends updates w) as (new & Hext & _ & Hbuilt).
  exists new. split; [done|].
  intros ft (i & Hi)%list_elem_of_lookup_1.
  destruct (Hbuilt i ft Hi) as (update & _ & _ & keyStrs & Hks & _ & Hsome & Hft).
  exists keyStrs. split; [done|].
  rewrite Hft, accountsOfInterest_filtered.
  pose proof (collect_sublist keyStrs) as Hsub.
  split; [done|]. split; [|by apply sublist_length].
  destruct (collect JsSet.empty keyStrs) as [|m ms] eqn:Hm; [|simpl; lia].
  apply collect_nil_iff in Hm. apply Exists_exists in Hsome as (k & Hk & Hint).
  rewrite Forall_forall in Hm. by destruct (Hm k Hk).
Qed.

Lemma resolvedTables_all lookups :
  Forall resolves lookups →
  Some <$> resolvedTables lookups
  = (λ lookup, getLookupTable (accountKey lookup)) <$> lookups.
Proof.
  induction 1 as [|lookup rest [lut Hlut] _ IH]; [done|].
  simpl. rewrite Hlut. rewrite fmap_cons, IH. done.
Qed.

(** X9. The lookup loop always returns, and [getAccountKeys] is called with
    the tables it collected: what the iteration does next is decided by the
    answer of [getAccountKeys] on exactly that list. The list holds the
    provider's answers for the lookups, in order: for all of them when every
    table is known, and otherwise for the lookups before the first unknown
    table only, which are fewer than the lookups of the transaction. *)
Theorem tables_handed_to_getAccountKeys batch tx w :
  ∃ luts w1,
    resolveLookups (addressTableLookups (message tx)) [] w = (inr luts, w1)
    ∧ processTxn batch tx w = expandAndFilter batch tx luts w1
    ∧ FilterRun batch tx w1 (getAccountKeys (message tx) luts)
                (processTxn batch tx w)
    ∧ (Forall resolves (addressTableLookups (message tx)) →
       Some <$> luts
       = (λ lookup, getLookupTable (accountKey lookup))
           <$> addressTableLookups (message tx))
    ∧ (∀ pre lookup post,
         addressTableLookups (message tx) = pre ++ lookup :: post →
         Forall resolves pre →
         getLookupTable (accountKey lookup) = None →
         Some <$> luts
         = (λ lookup, getLookupTable (accountKey lookup)) <$> pre
         ∧ length luts < length (addressTableLookups (message tx))).
Proof.
  exists (resolvedTables (addressTableLookups (message tx))), (lookedUp tx w).
  split_and!.
  - by rewrite resolveLookups_run.
  - apply processTxn_after_lookups.
  - apply processTxn_filter_run.
  - apply resolvedTables_all.
  - intros pre lookup post Heq Hpre Hnone. rewrite Heq.
    destruct (resolvedTables_stop pre lookup post Hpre Hnone) as [-> Hlen].
    split; [by apply resolvedTables_all|].
    rewrite Hlen, length_app. simpl. lia.
Qed.

(** X10. A transaction whose key list has no skip-listed key has every key
    looked at once, in the order of the list, whether it is yielded or
    dropped for want of an account of interest. *)
Theorem scan_visits_every_key batch tx w keyStrs :
  expandedKeys tx = Some keyStrs →
  Forall (λ s, ¬ skipListed s) keyStrs →
  scanned (processTxn batch tx w).2 = scanned w ++ keyStrs.
Proof.
  intros Hks Hclean. rewrite (processTxn_clean _ _ _ _ Hks Hclean).
  by destruct (decide _).
Qed.

Lemma extends_inj w w' new1 new2 :
  extends w w' new1 → extends w w' new2 → new1 = new2.
Proof.
  intros [Hy1 _] [Hy2 _]. rewrite Hy1 in Hy2. by apply app_inv_head in Hy2.
Qed.

Lemma processed_prefix txs : processed txs `prefix_of` txs.
Proof.
  induction txs as [|tx rest IH]; [done|].
  rewrite processed_cons. destruct (decide (hasKeys tx)).
  - by apply (prefix_app [tx]).
  - apply prefix_nil.
Qed.

Lemma filter_stamp (m : Z) (txs : list VersionedTransaction) :
  filter (λ p, passes p.1) ((λ tx, (tx, m)) <$> txs)
  = (λ tx, (tx, m)) <$> filter passes txs.
Proof.
  induction txs as [|tx rest IH]; [done|].
  rewrite fmap_cons, !filter_cons. simpl.
  destruct (decide (passes tx)); by rewrite IH.
Qed.

(** The records of one batch carry, in order, the stamp of the batch and
    the passing transactions the loop went through. *)
Lemma forTxns_origins batch txs w :
  ∃ new, extends w (forTxns batch txs w).2 new
    ∧ origin <$> new
      `prefix_of` filter (λ p, passes p.1)
                         ((λ tx, (tx, mempoolEnd batch)) <$> txs)
    ∧ ((forTxns batch txs w).1 = inr () →
       origin <$> new
       = filter (λ p, passes p.1) ((λ tx, (tx, mempoolEnd batch)) <$> txs)).
Proof.
  destruct (forTxns_summary batch txs w)
    as (new & tail & (Hext & _ & _) & Hout & Hend).
  destruct (forTxns_extends batch txs w) as (new' & Hext' & _ & Hbuilt).
  rewrite (extends_inj _ _ _ _ Hext' Hext) in Hbuilt. clear new' Hext'.
  assert (origin <$> new
          = (λ tx, (tx, mempoolEnd batch)) <$> filter passes (processed txs))
    as Horigin.
  { rewrite <- Hout, <- list_fmap_compose. apply list_eq. intros i.
    rewrite !list_lookup_fmap.
    destruct (new !! i) as [ft|] eqn:Hi; [|done]. simpl. f_equal.
    destruct (Hbuilt i ft Hi) as [(Hm & _)%builtAt_stampedAt _].
    unfold origin. by rewrite Hm. }
  exists new. split_and!; [done| |].
  - rewrite Horigin, <- filter_stamp.
    destruct (processed_prefix txs) as [more Hmore].
    rewrite Hmore at 2. rewrite fmap_app, filter_app. by apply prefix_app_r.
  - intros Hr. destruct Hend as [(_ & _ & Hall)|(Habs & _)]; [|congruence].
    by rewrite Horigin, (processed_all _ Hall), filter_stamp.
Qed.

(** The same for a run over the batches: the stamp of a record is that of
    the batch its transaction was read from. *)
Lemma preSimulationFilter_origins updates w :
  ∃ new, extends w (preSimulationFilter updates w).2 new
    ∧ origin <$> new `prefix_of` filter (λ p, passes p.1) (stampedTxns updates)
    ∧ ((preSimulationFilter updates w).1 = inr () →
       origin <$> new = filter (λ p, passes p.1) (stampedTxns updates)).
Proof.
  revert w. induction updates as [|update rest IH]; intros w.
  - exists []. split_and!; [apply extends_refl|done|done].
  - unfold stampedTxns. rewrite preSimulationFilter_cons, bind_cons, filter_app.
    fold (stampedTxns rest).
    destruct (forTxns_origins (updateTimings update) (txns update) w)
      as (new1 & Hext1 & Hpre1 & Heq1).
    destruct (forTxns _ _ w) as [[e|[]] w1]; cbn [fst snd] in Hext1, Heq1 |- *.
    + exists new1. split_and!; [done|by apply prefix_app_r|].
      intros Habs. discriminate Habs.
    + destruct (IH w1) as (new2 & Hext2 & Hpre2 & Heq2).
      exists (new1 ++ new2). split_and!.
      * by eapply extends_trans.
      * rewrite fmap_app, (Heq1 eq_refl). by apply prefix_app.
      * intros Hr. by rewrite fmap_app, (Heq1 eq_refl), (Heq2 Hr).
Qed.

(** C6, as the code has it. Every record the filter yields carries the
    [mempoolEnd] of the batch its transaction was read from: the pairs of
    transaction and [mempoolEnd] of the records are, in order, those of the
    passing transactions of the batches laid end to end, each with the stamp
    of its own batch, up to where the run ends (all of them when the run
    returns). Its [preSimEnd] is the clock reading taken for it (the clock
    is read once per record), the fields of the later stages are zero, and
    [preSimEnd] is at least [mempoolEnd] whenever the batch was not stamped
    later than that reading. *)
Theorem emitted_timings updates w :
  ∃ new, extends w (preSimulationFilter updates w).2 new
    ∧ origin <$> new `prefix_of` filter (λ p, passes p.1) (stampedTxns updates)
    ∧ ((preSimulationFilter updates w).1 = inr () →
       origin <$> new = filter (λ p, passes p.1) (stampedTxns updates))
    ∧ ∀ i ft, new !! i = Some ft →
        preSimEnd (timings ft) = Date_now (ticks w + i)
        ∧ laterStagesZero (timings ft)
        ∧ ((mempoolEnd (timings ft) ≤ Date_now (ticks w + i))%Z →
           (preSimEnd (timings ft) >= mempoolEnd (timings ft))%Z).
Proof.
  destruct (preSimulationFilter_origins updates w)
    as (new & Hext & Hpre & Heq).
  destruct (preSimulationFilter_extends updates w)
    as (new' & Hext' & _ & Hbuilt).
  rewrite (extends_inj _ _ _ _ Hext' Hext) in Hbuilt.
  exists new. split_and!; [done..|].
  intros i ft Hi. destruct (Hbuilt i ft Hi) as (update & _ & _ & Hb).
  apply builtAt_stampedAt in Hb as (_ & Hp & Hz).
  split_and!; [done|done|]. rewrite Hp. lia.
Qed.

End RunProperties.

(** * Whole runs on the small market *)

Section RunsOnTheMarket.
Import Market.
#[local] Existing Instance collaborators.

Ltac evaluated := apply (bool_decide_unpack _); vm_compute; exact I.

(** Two batches of two transactions each: one vetoed, one without match. *)
Lemma normal_run_yields_the_passing_witness :
  Forall hasKeys
    ([batchOf 900 [txPlain; txOrca]; batchOf 950 [txBoring; txViaTable]]
       ≫= txns)
  ∧ ∃ w' new,
      preSimulationFilter
        [batchOf 900 [txPlain; txOrca]; batchOf 950 [txBoring; txViaTable]]
        initialWorld = (inr (), w')
      ∧ extends initialWorld w' new
      ∧ txn <$> new = [txPlain; txViaTable].
Proof.
  assert (Forall hasKeys
            ([batchOf 900 [txPlain; txOrca];
              batchOf 950 [txBoring; txViaTable]] ≫= txns)) as Hall
    by evaluated.
  split; [exact Hall|].
  exact (normal_run_yields_the_passing _ initialWorld Hall).
Defined.

(** The second of three transactions refers to an unknown table. *)
Lemma failure_cuts_the_run_witness :
  Forall hasKeys [txPlain]
  ∧ expandedKeys txUnknownTable = None
  ∧ ∃ w' new,
      preSimulationFilter [batchOf 900 [txPlain; txUnknownTable; txViaTable]]
                          initialWorld = (inl nullKeySegments, w')
      ∧ extends initialWorld w' new
      ∧ txn <$> new = [txPlain]
      ∧ resolverCalls w' = [pk "TableZ"].
Proof.
  assert (Forall hasKeys [txPlain]) as Hpre by evaluated.
  split; [exact Hpre|]. split; [reflexivity|].
  exact (failure_cuts_the_run
           [batchOf 900 [txPlain; txUnknownTable; txViaTable]] initialWorld
           [txPlain] txUnknownTable [txViaTable] eq_refl Hpre eq_refl).
Defined.

(** A vetoed transaction and one that reaches its vaults through a table. *)
Lemma provider_asked_for_every_transaction_witness :
  Forall hasKeys ([batchOf 900 [txOrca; txViaTable]] ≫= txns)
  ∧ resolverCalls
      (preSimulationFilter [batchOf 900 [txOrca; txViaTable]] initialWorld).2
    = [pk "TableA"].
Proof.
  assert (Forall hasKeys ([batchOf 900 [txOrca; txViaTable]] ≫= txns)) as Hall
    by evaluated.
  split; [exact Hall|].
  exact (provider_asked_for_every_transaction _ initialWorld Hall).
Defined.

(** Two batches stamped 900 and the batch of their transactions. *)
Lemma merge_batches_witness :
  updateTimings (batchOf 900 [txPlain]) = updateTimings (batchOf 900 [txViaTable])
  ∧ preSimulationFilter [batchOf 900 [txPlain]; batchOf 900 [txViaTable]]
                        initialWorld
    = preSimulationFilter [batchOf 900 [txPlain; txViaTable]] initialWorld.
Proof.
  split; [reflexivity|].
  exact (merge_batches (batchOf 900 [txPlain]) (batchOf 900 [txViaTable]) []
                       initialWorld eq_refl).
Defined.

(** The known table alone reaches [getAccountKeys] when the table after it
    is unknown, and the library then throws. *)
Lemma tables_handed_to_getAccountKeys_witness :
  ∃ luts w1,
    resolveLookups (addressTableLookups (message txKnownThenUnknown)) []
                   initialWorld = (inr luts, w1)
    ∧ FilterRun (stamp 900) txKnownThenUnknown w1
                (getAccountKeys (message txKnownThenUnknown) luts)
                (processTxn (stamp 900) txKnownThenUnknown initialWorld)
    ∧ Some <$> luts = [Some tableA]
    ∧ length luts < 2.
Proof.
  destruct (tables_handed_to_getAccountKeys (stamp 900) txKnownThenUnknown
              initialWorld) as (luts & w1 & Hloop & _ & Hrun & _ & Hstop).
  assert (Forall resolves [lookupOf "TableA" [0] []]) as Hpre.
  { constructor; [exists tableA; reflexivity|constructor]. }
  exists luts, w1. split; [exact Hloop|]. split; [exact Hrun|].
  exact (Hstop [lookupOf "TableA" [0] []] (lookupOf "TableZ" [0] []) []
               eq_refl Hpre eq_refl).
Defined.

(** Two batches with the same transaction and different stamps: each
    record carries the stamp of its own batch and its own clock reading. *)
Lemma emitted_timings_witness :
  ∃ new,
    yielded (run [batchOf 900 [txPlain]; batchOf 950 [txPlain]]).2 = new
    ∧ origin <$> new = [(txPlain, 900%Z); (txPlain, 950%Z)]
    ∧ ∀ i ft, new !! i = Some ft →
        preSimEnd (timings ft) = Date_now (0 + i)
        ∧ laterStagesZero (timings ft)
        ∧ ((mempoolEnd (timings ft) ≤ Date_now (0 + i))%Z →
           (preSimEnd (timings ft) >= mempoolEnd (timings ft))%Z).
Proof.
  destruct (emitted_timings [batchOf 900 [txPlain]; batchOf 950 [txPlain]]
                            initialWorld) as (new & [Hy _] & _ & Heq & Hall).
  exists new. split; [exact Hy|]. split; [|exact Hall].
  exact (Heq eq_refl).
Defined.

(** The log of a run that returns and of a run that is cut short. *)
Lemma log_of_a_run_witness :
  (∃ new, extends initialWorld (run [batchOf 900 [txPlain; txOrca]]).2 new
          ∧ logged (run [batchOf 900 [txPlain; txOrca]]).2
            = logged initialWorld ++ (announce <$> new))
  ∧ (∃ new e,
       extends initialWorld
               (run [batchOf 900 [txPlain; txUnknownTable; txViaTable]]).2 new
       ∧ logged (run [batchOf 900 [txPlain; txUnknownTable; txViaTable]]).2
         = logged initialWorld ++ (announce <$> new) ++ [warning e]).
Proof.
  assert (Forall hasKeys [txPlain]) as Hpre by evaluated.
  split.
  - exact (proj1 (log_of_a_run [batchOf 900 [txPlain; txOrca]] initialWorld)
                 eq_refl).
  - exact (proj2 (log_of_a_run
                    [batchOf 900 [txPlain; txUnknownTable; txViaTable]]
                    initialWorld)
                 [txPlain] txUnknownTable [txViaTable] eq_refl Hpre eq_refl).
Defined.

(** The scan of a transaction that is yielded. *)
Lemma scan_visits_every_key_witness :
  expandedKeys txViaTable
  = Some ["Payer2"; "VaultA"; "VaultA"; "VaultB"; "VaultC"]
  ∧ Forall (λ s, ¬ skipListed s)
           ["Payer2"; "VaultA"; "VaultA"; "VaultB"; "VaultC"]
  ∧ scanned (processTxn (stamp 900) txViaTable initialWorld).2
    = ["Payer2"; "VaultA"; "VaultA"; "VaultB"; "VaultC"].
Proof.
  assert (Forall (λ s, ¬ skipListed s)
                 ["Payer2"; "VaultA"; "VaultA"; "VaultB"; "VaultC"]) as Hclean
    by evaluated.
  split; [reflexivity|]. split; [exact Hclean|].
  exact (scan_visits_every_key (stamp 900) txViaTable initialWorld _
                               eq_refl Hclean).
Defined.

End RunsOnTheMarket.
